(** * hyperopt_utils: keyword-argument injection into code snippets

    A shallow embedding of [Agent/tutorials/hyperopt_tutorial_files/hyperopt_utils.py]
    and of the parts of the Python runtime it calls ([str] methods, [re.sub]
    for the one pattern used, [ast.parse] / [ast.literal_eval] on a subset of
    the expression grammar, [repr]), followed by the properties of the five
    functions of the module.

    Python strings are modelled as [string]: sequences of code points below
    256.  Python integers are [Z].  An exception is a value of [exn]; a
    computation that can raise returns a [result]. *)

From Stdlib Require Import ZArith List String Ascii Bool Lia ListSet.
Import ListNotations.

Local Open Scope string_scope.
Local Open Scope Z_scope.

#[local] Set Warnings "-register-all".

(** ** Outcomes of Python computations *)

Inductive exn : Type :=
| AssertionError
| IndexError
| KeyError
| SyntaxError
| ValueError
| AttributeError
| TypeError.

(** [OutOfModel] marks an input on which the model of a library function says
    nothing (syntax outside the modelled subset of Python); it is neither a
    value nor an exception, and no property below counts it as either. *)
Inductive result (A : Type) : Type :=
| Ok (a : A)
| Raise (e : exn)
| OutOfModel.

Arguments Ok {A} a.
Arguments Raise {A} e.
Arguments OutOfModel {A}.

Definition bind {A B : Type} (m : result A) (k : A -> result B) : result B :=
  match m with
  | Ok a => k a
  | Raise e => Raise e
  | OutOfModel => OutOfModel
  end.

Notation "x <- m ;; k" := (bind m (fun x => k))
  (at level 61, m at next level, right associativity).

Definition raises {A : Type} (m : result A) : Prop := exists e, m = Raise e.

Ltac raises_with e := exists e; reflexivity.

(** Comparisons of integers, from their boolean form. *)
Ltac order_bools :=
  repeat match goal with
         | H : (_ <? _) = true |- _ => apply Z.ltb_lt in H
         | H : (_ <? _) = false |- _ => apply Z.ltb_ge in H
         | H : (_ <=? _) = true |- _ => apply Z.leb_le in H
         | H : (_ <=? _) = false |- _ => apply Z.leb_gt in H
         end.

Definition mapM {A B : Type} (f : A -> result B) : list A -> result (list B) :=
  fix go (l : list A) : result (list B) :=
    match l with
    | [] => Ok []
    | a :: l' => b <- f a ;; bs <- go l' ;; Ok (b :: bs)
    end.

(** ** Python [str] *)

Module Str.

Definition dquote : ascii := "034"%char.
Definition newline : ascii := "010"%char.
Definition nl : string := String newline EmptyString.
Definition char (c : ascii) : string := String c EmptyString.

Definition len (s : string) : Z := Z.of_nat (String.length s).

(** [s[i]]: negative indices count from the end; out of range raises. *)
Definition index (s : string) (i : Z) : result string :=
  let j := if i <? 0 then i + len s else i in
  if (j <? 0) || (len s <=? j) then Raise IndexError
  else match String.get (Z.to_nat j) s with
       | Some c => Ok (char c)
       | None => Raise IndexError
       end.

(** [s[lo:hi]] with either bound optional (step 1). *)
Definition clamp (n : Z) (i : Z) : Z :=
  let j := if i <? 0 then i + n else i in
  if j <? 0 then 0 else if n <? j then n else j.

Definition slice (s : string) (lo hi : option Z) : string :=
  let n := len s in
  let l := match lo with Some i => clamp n i | None => 0 end in
  let h := match hi with Some i => clamp n i | None => n end in
  if h <=? l then EmptyString
  else String.substring (Z.to_nat l) (Z.to_nat (h - l)) s.

(** [s.count(c)] for a one-character [c], the only way the module calls it. *)
Fixpoint count (c : ascii) (s : string) : Z :=
  match s with
  | EmptyString => 0
  | String a s' => (if Ascii.eqb a c then 1 else 0) + count c s'
  end.

(** [s.split(c)] for a one-character separator. *)
Fixpoint split (sep : ascii) (s : string) : list string :=
  match s with
  | EmptyString => [EmptyString]
  | String a s' =>
      if Ascii.eqb a sep then EmptyString :: split sep s'
      else match split sep s' with
           | [] => [char a]
           | h :: t => String a h :: t
           end
  end.

(** [s.find(pat)]: the least index at which [pat] occurs, or -1. *)
Fixpoint find (pat s : string) : Z :=
  if String.prefix pat s then 0
  else match s with
       | EmptyString => -1
       | String _ s' => let r := find pat s' in if r <? 0 then -1 else r + 1
       end.

(** [c.isspace()] on code points below 256. *)
Definition isspace (c : ascii) : bool :=
  let n := nat_of_ascii c in
  (((9 <=? n) && (n <=? 13)) || ((28 <=? n) && (n <=? 32))
   || (n =? 133) || (n =? 160))%nat.

Fixpoint lstrip (s : string) : string :=
  match s with
  | EmptyString => EmptyString
  | String c s' => if isspace c then lstrip s' else s
  end.

Fixpoint rstrip (s : string) : string :=
  match s with
  | EmptyString => EmptyString
  | String c s' =>
      match rstrip s' with
      | EmptyString => if isspace c then EmptyString else char c
      | r => String c r
      end
  end.

Definition strip (s : string) : string := lstrip (rstrip s).

(** The text after the first [n] characters. *)
Fixpoint drop (n : nat) (s : string) : string :=
  match n, s with
  | O, _ => s
  | S n', String _ s' => drop n' s'
  | S _, EmptyString => EmptyString
  end.

Fixpoint last (s : string) (d : option ascii) : option ascii :=
  match s with
  | EmptyString => d
  | String c s' => last s' (Some c)
  end.

Definition join (sep : string) (l : list string) : string := String.concat sep l.

Fixpoint cat (l : list string) : string :=
  match l with
  | [] => EmptyString
  | s :: l' => s ++ cat l'
  end.

End Str.

(** ** [re.sub] for the pattern of the segmenter

    The pattern has two alternatives: a white-space character followed by one
    of the characters ? , . ! or a double quote; or, after an opening round or
    square bracket, the shortest run of characters (none a line break) that
    is followed by a closing round or square bracket.  The replacement is the
    matched text stripped.  The functions follow the
    matching engine: at each start position the first alternative is tried,
    then the second; the search moves one character to the right when both
    fail; after an empty match the next match at the same position must be
    non-empty. *)

Module Re.

Definition is_punct (c : ascii) : bool :=
  Ascii.eqb c "?" || Ascii.eqb c "," || Ascii.eqb c "." || Ascii.eqb c "!"
  || Ascii.eqb c Str.dquote.

Definition is_open (c : ascii) : bool := Ascii.eqb c "[" || Ascii.eqb c "(".
Definition is_close (c : ascii) : bool := Ascii.eqb c ")" || Ascii.eqb c "]".

(** First alternative, white space then punctuation: two characters when it
    matches. *)
Definition alt_space_punct (rest : string) : option nat :=
  match rest with
  | String a (String b _) => if Str.isspace a && is_punct b then Some 2%nat else None
  | _ => None
  end.

(** The lazy run of the second alternative and its look-ahead: the least
    number of characters, none of them a line break, after which a closing
    bracket follows; [adv] forbids the empty match. *)
Fixpoint lazy_dots (rest : string) (adv : bool) : option nat :=
  match rest with
  | EmptyString => None
  | String c rest' =>
      if is_close c && negb adv then Some O
      else if Ascii.eqb c Str.newline then None
      else option_map S (lazy_dots rest' false)
  end.

(** Second alternative with its look-behind on the previous character. *)
Definition alt_inside_brackets (prev : option ascii) (rest : string) (adv : bool)
  : option nat :=
  match prev with
  | Some p => if is_open p then lazy_dots rest adv else None
  | None => None
  end.

(** Length of the match that starts here, if there is one. *)
Definition match_here (prev : option ascii) (rest : string) (adv : bool) : option nat :=
  match alt_space_punct rest with
  | Some n => Some n
  | None => alt_inside_brackets prev rest adv
  end.

(** The substitution loop.  [prev] is the character before the current
    position, [rest] the text from it on, [adv] tells that the previous match
    was empty and ended here. *)
Fixpoint sub_loop (fuel : nat) (prev : option ascii) (rest : string) (adv : bool)
  : option string :=
  match fuel with
  | O => None
  | S fuel' =>
      match match_here prev rest adv with
      | Some n =>
          let m := String.substring 0 n rest in
          option_map (String.append (Str.strip m))
            (sub_loop fuel' (Str.last m prev) (Str.drop n rest) (Nat.eqb n 0))
      | None =>
          match rest with
          | EmptyString => Some EmptyString
          | String c rest' =>
              option_map (String c) (sub_loop fuel' (Some c) rest' false)
          end
      end
  end.

Definition sub_fuel (s : string) : nat := (2 * String.length s + 2)%nat.

(** [re.sub(pattern, lambda x: x.group().strip(), line)]; the fuel always
    suffices ([sub_loop_total] below), the default is never taken. *)
Definition sub_strip (line : string) : string :=
  match sub_loop (sub_fuel line) None line false with
  | Some r => r
  | None => line
  end.

End Re.

(** ** [convert_to_single_line_blocks] *)

(** The body of the [while] loop, one physical line per step; [blocks],
    [new_block] and [n_diff] are the locals of the function. *)
Fixpoint blocks_loop (code : list string) (blocks : list string)
    (new_block : string) (n_diff : Z) : result (list string) :=
  match code with
  | [] => if n_diff =? 0 then Ok blocks else Raise AssertionError
  | line :: code' =>
      let n_diff := n_diff + (Str.count "(" line - Str.count ")" line) in
      if n_diff <? 0 then Raise AssertionError
      else
        let new_block := new_block ++ Re.sub_strip line in
        if n_diff =? 0 then blocks_loop code' (blocks ++ [new_block]) EmptyString 0
        else blocks_loop code' blocks new_block n_diff
  end.

Definition convert_to_single_line_blocks (code : string) : result (list string) :=
  blocks_loop (Str.split Str.newline code) [] EmptyString 0.

(** ** Dictionaries with string keys *)

(** A [dict] with [str] keys, in insertion order. *)
Definition dict (V : Type) : Type := list (string * V).

Fixpoint dict_find {V : Type} (d : dict V) (k : string) : option V :=
  match d with
  | [] => None
  | (k', v) :: d' => if String.eqb k' k then Some v else dict_find d' k
  end.

(** [d[k]] *)
Definition dict_get {V : Type} (d : dict V) (k : string) : result V :=
  match dict_find d k with
  | Some v => Ok v
  | None => Raise KeyError
  end.

Definition dict_keys {V : Type} (d : dict V) : list string := map fst d.

(** [d[k] = v]: a key that is present keeps its place. *)
Fixpoint dict_set {V : Type} (d : dict V) (k : string) (v : V) : dict V :=
  match d with
  | [] => [(k, v)]
  | (k', v') :: d' =>
      if String.eqb k' k then (k', v) :: d' else (k', v') :: dict_set d' k v
  end.

(** ** [find_matching_parenthesis] *)

Definition parenthesis_pairs : list string :=
  ["()"; "{}"; "[]"; "''"; String Str.dquote (String Str.dquote EmptyString)].

(** [{p[0]: p[1] for p in parenthesis_pairs}] *)
Definition matching_table : result (dict string) :=
  fold_left (fun table p =>
               d <- table ;;
               opening <- Str.index p 0 ;;
               closing <- Str.index p 1 ;;
               Ok (dict_set d opening closing))
    parenthesis_pairs (Ok []).

(** The value of [matching] when the caller gives none. *)
Definition default_matching (parenthesis_type : string) : result string :=
  table <- matching_table ;; dict_get table parenthesis_type.

(** [range(lo, hi)] *)
Definition range (lo hi : Z) : list Z :=
  map (fun k => lo + Z.of_nat k) (seq 0 (Z.to_nat (hi - lo))).

(** The [for] loop over the indices after [start_ind]. *)
Fixpoint scan_parenthesis (line parenthesis_type matching : string)
    (indices : list Z) (n_open : Z) : result Z :=
  match indices with
  | [] => Raise IndexError
  | i :: indices' =>
      c <- Str.index line i ;;
      if String.eqb c parenthesis_type then
        scan_parenthesis line parenthesis_type matching indices' (n_open + 1)
      else if String.eqb c matching then
        let n_open := n_open - 1 in
        if n_open =? 0 then Ok i
        else scan_parenthesis line parenthesis_type matching indices' n_open
      else scan_parenthesis line parenthesis_type matching indices' n_open
  end.

Definition find_matching_parenthesis (line : string) (start_ind : Z)
    (parenthesis_type : string) (matching : option string) : result Z :=
  c <- Str.index line start_ind ;;
  if negb (String.eqb c parenthesis_type) then Raise AssertionError
  else
    matching <- match matching with
                | None => default_matching parenthesis_type
                | Some m => Ok m
                end ;;
    scan_parenthesis line parenthesis_type matching
      (range (start_ind + 1) (Str.len line)) 1.

(** ** Python values and their textual forms *)

(** A [float] is held as the decimal its [repr] prints, [man * 10 ^ exp] with
    [man] not a multiple of ten (and [exp = 0] when [man = 0]): the shortest
    decimal that reads back as the same float. *)
Inductive value : Type :=
| VInt (n : Z)
| VFloat (neg : bool) (man : N) (exp : Z)
| VStr (s : string)
| VBool (b : bool)
| VNone
| VList (elts : list value)
| VTuple (elts : list value)
| VDict (items : list (value * value))
| VEmptySet.

Module Repr.

Definition digit_char (d : nat) : ascii := ascii_of_nat (48 + d).

(** Decimal digits of a natural number, most significant first. *)
Fixpoint digits_fuel (fuel : nat) (n : N) (acc : string) : string :=
  match fuel with
  | O => acc
  | S fuel' =>
      let acc' := String (digit_char (N.to_nat (n mod 10))) acc in
      if (n <? 10)%N then acc' else digits_fuel fuel' (n / 10)%N acc'
  end.

Definition digits (n : N) : string := digits_fuel (S (N.to_nat (N.log2 n))) n EmptyString.

Definition int (n : Z) : string :=
  if n <? 0 then String "-" (digits (Z.to_N (- n))) else digits (Z.to_N n).

Fixpoint zeros (n : nat) : string :=
  match n with
  | O => EmptyString
  | S n' => String "0" (zeros n')
  end.

(** [repr] of a float: positional notation when the decimal point falls
    within the digits or at most three zeros before and sixteen digits in all
    before it, scientific notation otherwise. *)
Definition float (neg : bool) (man : N) (exp : Z) : string :=
  let ds := digits man in
  let n := Str.len ds in
  let decpt := n + exp in
  let body :=
    if (decpt <=? -4) || (16 <? decpt) then
      let e := decpt - 1 in
      let frac := Str.drop 1 ds in
      let mant := match frac with
                  | EmptyString => String.substring 0 1 ds
                  | _ => String.substring 0 1 ds ++ "." ++ frac
                  end in
      let ed := digits (Z.to_N (Z.abs e)) in
      mant ++ "e" ++ (if e <? 0 then "-" else "+")
           ++ (if Str.len ed <? 2 then "0" ++ ed else ed)
    else if decpt <=? 0 then "0." ++ zeros (Z.to_nat (- decpt)) ++ ds
    else if n <=? decpt then ds ++ zeros (Z.to_nat (decpt - n)) ++ ".0"
    else String.substring 0 (Z.to_nat decpt) ds ++ "." ++ Str.drop (Z.to_nat decpt) ds
  in if neg then String "-" body else body.

Definition hex_char (d : nat) : ascii :=
  if (d <? 10)%nat then ascii_of_nat (48 + d) else ascii_of_nat (87 + d).

Definition printable (c : ascii) : bool :=
  let n := nat_of_ascii c in
  ((32 <=? n) && (n <? 127) || (161 <=? n) && negb (n =? 173))%nat.

Fixpoint contains (c : ascii) (s : string) : bool :=
  match s with
  | EmptyString => false
  | String a s' => Ascii.eqb a c || contains c s'
  end.

Definition escape_char (q c : ascii) : string :=
  if Ascii.eqb c "\" then "\\"
  else if Ascii.eqb c q then String "\" (Str.char q)
  else if Ascii.eqb c "009" then "\t"
  else if Ascii.eqb c "010" then "\n"
  else if Ascii.eqb c "013" then "\r"
  else if printable c then Str.char c
  else let n := nat_of_ascii c in
       "\x" ++ String (hex_char (n / 16)) (Str.char (hex_char (n mod 16))).

Fixpoint escape (q : ascii) (s : string) : string :=
  match s with
  | EmptyString => EmptyString
  | String c s' => escape_char q c ++ escape q s'
  end.

(** [repr] of a [str]: single quotes, unless the text has a single quote and
    no double quote. *)
Definition str (s : string) : string :=
  let q := if contains "'" s && negb (contains Str.dquote s) then Str.dquote else "'"%char in
  String q (escape q s ++ Str.char q).

Fixpoint repr (v : value) : string :=
  match v with
  | VInt n => int n
  | VFloat neg man exp => float neg man exp
  | VStr s => str s
  | VBool b => if b then "True" else "False"
  | VNone => "None"
  | VList elts => "[" ++ Str.join ", " (map repr elts) ++ "]"
  | VTuple elts =>
      match elts with
      | [x] => "(" ++ repr x ++ ",)"
      | _ => "(" ++ Str.join ", " (map repr elts) ++ ")"
      end
  | VDict items =>
      "{" ++ Str.join ", " (map (fun kv => repr (fst kv) ++ ": " ++ repr (snd kv)) items) ++ "}"
  | VEmptySet => "set()"
  end.

(** [str(v)], which an f-string applies to a value without a format. *)
Definition to_str (v : value) : string :=
  match v with
  | VStr s => s
  | _ => repr v
  end.

End Repr.

(** ** [ast.parse] and [ast.literal_eval]

    The model covers one expression statement on one line, built from names,
    decimal integers, floats written with a decimal point and at most fifteen
    digits, quoted strings without escapes, [True], [False], [None], round,
    square and curly displays (tuples, lists, dictionaries), unary plus and
    minus, attribute access and calls with positional and keyword arguments.
    Text outside this subset is [OutOfModel]. *)

Module Ast.

Inductive constant : Type :=
| CInt (n : Z)
| CFloat (man : N) (exp : Z)
| CStr (s : string)
| CBool (b : bool)
| CNone.

Inductive unaryop : Type := UAdd | USub.

Inductive expr : Type :=
| Name (id : string)
| Constant (c : constant)
| Tuple (elts : list expr)
| List (elts : list expr)
| Dict (items : list (expr * expr))
| UnaryOp (op : unaryop) (operand : expr)
| Attribute (obj : expr) (attr : string)
| Call (func : expr) (args : list expr) (keywords : list (string * expr)).

(** A statement of a module body; only expression statements are modelled. *)
Inductive stmt : Type := Expr (e : expr).

(** *** Tokens *)

Inductive token : Type :=
| TName (s : string)
| TInt (n : Z)
| TFloat (man : N) (exp : Z)
| TStr (s : string)
| TOp (c : ascii).

Definition is_digit (c : ascii) : bool :=
  let n := nat_of_ascii c in ((48 <=? n) && (n <=? 57))%nat.

Definition is_name_start (c : ascii) : bool :=
  let n := nat_of_ascii c in
  (((65 <=? n) && (n <=? 90)) || ((97 <=? n) && (n <=? 122)) || (n =? 95))%nat.

Definition is_name_char (c : ascii) : bool := is_name_start c || is_digit c.

Definition is_quote (c : ascii) : bool := Ascii.eqb c "'" || Ascii.eqb c Str.dquote.

Definition is_op (c : ascii) : bool :=
  Ascii.eqb c "(" || Ascii.eqb c ")" || Ascii.eqb c "[" || Ascii.eqb c "]"
  || Ascii.eqb c "{" || Ascii.eqb c "}" || Ascii.eqb c "," || Ascii.eqb c ":"
  || Ascii.eqb c "=" || Ascii.eqb c "." || Ascii.eqb c "+" || Ascii.eqb c "-".

Definition reserved_words : list string :=
  ["and"; "as"; "assert"; "async"; "await"; "break"; "class"; "continue";
   "def"; "del"; "elif"; "else"; "except"; "finally"; "for"; "from"; "global";
   "if"; "import"; "in"; "is"; "lambda"; "nonlocal"; "not"; "or"; "pass";
   "raise"; "return"; "try"; "while"; "with"; "yield"].

Definition is_keyword (s : string) : bool := existsb (String.eqb s) reserved_words.

(** A name made of the letters of string prefixes (r, u, b, f, t in either
    case) may be the prefix of a string literal when a quote follows it. *)
Fixpoint prefix_letters (s : string) : bool :=
  match s with
  | EmptyString => true
  | String c s' =>
      existsb (Ascii.eqb c) (list_ascii_of_string "rRuUbBfFtT") && prefix_letters s'
  end.

Fixpoint digits_value (s : string) (acc : N) : N :=
  match s with
  | EmptyString => acc
  | String c s' => digits_value s' (acc * 10 + N.of_nat (nat_of_ascii c - 48))%N
  end.

(** Strip the factors of ten of a mantissa. *)
Fixpoint normalise (fuel : nat) (man : N) (exp : Z) : N * Z :=
  match fuel with
  | O => (man, exp)
  | S fuel' =>
      if (man =? 0)%N then (0%N, 0)
      else if (man mod 10 =? 0)%N then normalise fuel' (man / 10)%N (exp + 1)
      else (man, exp)
  end.

Inductive lex_state : Type :=
| LStart
| LName (acc : string)
| LInt (acc : string)
| LFrac (ip fp : string)
| LStr (q : ascii) (acc : string).

(** The token that a state holds when the text leaves it. *)
Definition flush (st : lex_state) : result (list token) :=
  match st with
  | LStart => Ok []
  | LName acc => if is_keyword acc then OutOfModel else Ok [TName acc]
  | LInt acc =>
      match acc with
      | String "0" (String _ _) => OutOfModel
      | _ => Ok [TInt (Z.of_N (digits_value acc 0))]
      end
  | LFrac ip fp =>
      if (15 <? String.length ip + String.length fp)%nat then OutOfModel
      else
        let '(man, exp) := normalise 16 (digits_value (ip ++ fp) 0)
                             (- Z.of_nat (String.length fp)) in
        Ok [TFloat man exp]
  | LStr _ _ => Raise SyntaxError
  end.

(** A character read in the start state; [next] is the text after it. *)
Definition start_char (c : ascii) (next : string) : result (list token * lex_state) :=
  if Ascii.eqb c " " || Ascii.eqb c "009" then Ok ([], LStart)
  else if is_name_start c then Ok ([], LName (Str.char c))
  else if is_digit c then Ok ([], LInt (Str.char c))
  else if is_quote c then
    match next with
    | String a (String b _) =>
        if Ascii.eqb a c && Ascii.eqb b c then OutOfModel
        else Ok ([], LStr c EmptyString)
    | _ => Ok ([], LStr c EmptyString)
    end
  else if Ascii.eqb c "." then
    match next with
    | String d _ => if is_digit d then Ok ([], LFrac EmptyString EmptyString)
                    else Ok ([TOp c], LStart)
    | EmptyString => Ok ([TOp c], LStart)
    end
  else if is_op c then Ok ([TOp c], LStart)
  else OutOfModel.

(** Leave the state [st] on the character [c], which starts a new token. *)
Definition leave (st : lex_state) (c : ascii) (next : string)
  : result (list token * lex_state) :=
  ts <- flush st ;;
  r <- start_char c next ;;
  Ok ((ts ++ fst r)%list, snd r).

Definition lex_step (st : lex_state) (c : ascii) (next : string)
  : result (list token * lex_state) :=
  match st with
  | LStart => start_char c next
  | LName acc =>
      if is_name_char c then Ok ([], LName (acc ++ Str.char c))
      else if is_quote c && prefix_letters acc then OutOfModel
      else leave st c next
  | LInt acc =>
      if is_digit c then Ok ([], LInt (acc ++ Str.char c))
      else if Ascii.eqb c "." then Ok ([], LFrac acc EmptyString)
      else if is_name_start c then OutOfModel
      else leave st c next
  | LFrac ip fp =>
      if is_digit c then Ok ([], LFrac ip (fp ++ Str.char c))
      else if Ascii.eqb c "." || is_name_start c then OutOfModel
      else leave st c next
  | LStr q acc =>
      if Ascii.eqb c q then Ok ([TStr acc], LStart)
      else if Ascii.eqb c "\" || negb (Repr.printable c) then OutOfModel
      else Ok ([], LStr q (acc ++ Str.char c))
  end.

Fixpoint lex (s : string) (st : lex_state) : result (list token) :=
  match s with
  | EmptyString => flush st
  | String c s' =>
      r <- lex_step st c s' ;;
      ts <- lex s' (snd r) ;;
      Ok (fst r ++ ts)%list
  end.

(** *** Parser

    Recursive descent over the tokens.  Every call spends one unit of [fuel];
    running out of it is [OutOfModel].  A token that the subset has no rule
    for is [OutOfModel]; the end of the text inside a bracket and a positional
    argument after a keyword argument are syntax errors. *)

Definition constant_of_name (s : string) : option constant :=
  if String.eqb s "True" then Some (CBool true)
  else if String.eqb s "False" then Some (CBool false)
  else if String.eqb s "None" then Some CNone
  else None.

Definition atom_of_name (s : string) : expr :=
  match constant_of_name s with
  | Some c => Constant c
  | None => Name s
  end.

(** One argument of a call: positional or keyword. *)
Inductive argument : Type :=
| Positional (e : expr)
| Keyword (name : string) (e : expr).

Definition positionals (l : list argument) : list expr :=
  flat_map (fun a => match a with Positional e => [e] | Keyword _ _ => [] end) l.

Definition keyword_args (l : list argument) : list (string * expr) :=
  flat_map (fun a => match a with Positional _ => [] | Keyword n e => [(n, e)] end) l.

Definition is_keyword_arg (a : argument) : bool :=
  match a with Positional _ => false | Keyword _ _ => true end.

(** No positional argument follows a keyword argument. *)
Fixpoint args_ordered (l : list argument) : bool :=
  match l with
  | [] => true
  | a :: l' =>
      (if is_keyword_arg a then forallb is_keyword_arg l' else true) && args_ordered l'
  end.

Fixpoint parse_expr (fuel : nat) (ts : list token) {struct fuel}
  : result (expr * list token) :=
  match fuel with
  | O => OutOfModel
  | S fuel' =>
      match ts with
      | TOp "-" :: ts' =>
          r <- parse_expr fuel' ts' ;; Ok (UnaryOp USub (fst r), snd r)
      | TOp "+" :: ts' =>
          r <- parse_expr fuel' ts' ;; Ok (UnaryOp UAdd (fst r), snd r)
      | _ =>
          r <- parse_atom fuel' ts ;; parse_trailers fuel' (fst r) (snd r)
      end
  end

with parse_atom (fuel : nat) (ts : list token) {struct fuel}
  : result (expr * list token) :=
  match fuel with
  | O => OutOfModel
  | S fuel' =>
      match ts with
      | [] => Raise SyntaxError
      | TName n :: ts' => Ok (atom_of_name n, ts')
      | TInt n :: ts' => Ok (Constant (CInt n), ts')
      | TFloat m e :: ts' => Ok (Constant (CFloat m e), ts')
      | TStr s :: ts' =>
          match ts' with
          | TStr _ :: _ => OutOfModel
          | _ => Ok (Constant (CStr s), ts')
          end
      | TOp "(" :: ts' =>
          r <- parse_elts fuel' ")" ts' ;;
          let '(es, comma, rest) := r in
          match es, comma with
          | [e], false => Ok (e, rest)
          | _, _ => Ok (Tuple es, rest)
          end
      | TOp "[" :: ts' =>
          r <- parse_elts fuel' "]" ts' ;;
          let '(es, _, rest) := r in Ok (List es, rest)
      | TOp "{" :: ts' =>
          r <- parse_items fuel' ts' ;; Ok (Dict (fst r), snd r)
      | TOp _ :: _ => OutOfModel
      end
  end

(** Attribute accesses and calls after an atom. *)
with parse_trailers (fuel : nat) (e : expr) (ts : list token) {struct fuel}
  : result (expr * list token) :=
  match fuel with
  | O => OutOfModel
  | S fuel' =>
      match ts with
      | TOp "." :: TName a :: ts' =>
          match constant_of_name a with
          | Some _ => OutOfModel
          | None => parse_trailers fuel' (Attribute e a) ts'
          end
      | TOp "(" :: ts' =>
          r <- parse_args fuel' ts' ;;
          let '(args, rest) := r in
          if args_ordered args
          then parse_trailers fuel' (Call e (positionals args) (keyword_args args)) rest
          else Raise SyntaxError
      | _ => Ok (e, ts)
      end
  end

(** Elements separated by commas up to the bracket [close]; the boolean tells
    whether a comma followed the first element. *)
with parse_elts (fuel : nat) (close : ascii) (ts : list token) {struct fuel}
  : result (list expr * bool * list token) :=
  match fuel with
  | O => OutOfModel
  | S fuel' =>
      match ts with
      | [] => Raise SyntaxError
      | TOp c :: ts' =>
          if Ascii.eqb c close then Ok ([], false, ts')
          else r <- parse_expr fuel' ts ;; parse_elts_tail fuel' close (fst r) (snd r)
      | _ => r <- parse_expr fuel' ts ;; parse_elts_tail fuel' close (fst r) (snd r)
      end
  end

with parse_elts_tail (fuel : nat) (close : ascii) (e : expr) (ts : list token)
    {struct fuel} : result (list expr * bool * list token) :=
  match fuel with
  | O => OutOfModel
  | S fuel' =>
      match ts with
      | [] => Raise SyntaxError
      | TOp c :: ts' =>
          if Ascii.eqb c close then Ok ([e], false, ts')
          else if Ascii.eqb c "," then
            r <- parse_elts fuel' close ts' ;;
            let '(es, _, rest) := r in Ok (e :: es, true, rest)
          else OutOfModel
      | _ => OutOfModel
      end
  end

(** The [key: value] items of a dictionary display, after the brace. *)
with parse_items (fuel : nat) (ts : list token) {struct fuel}
  : result (list (expr * expr) * list token) :=
  match fuel with
  | O => OutOfModel
  | S fuel' =>
      match ts with
      | [] => Raise SyntaxError
      | TOp "}" :: ts' => Ok ([], ts')
      | _ =>
          k <- parse_expr fuel' ts ;;
          match snd k with
          | [] => Raise SyntaxError
          | TOp ":" :: ts1 =>
              v <- parse_expr fuel' ts1 ;;
              match snd v with
              | [] => Raise SyntaxError
              | TOp "}" :: ts2 => Ok ([(fst k, fst v)], ts2)
              | TOp "," :: ts2 =>
                  r <- parse_items fuel' ts2 ;;
                  Ok ((fst k, fst v) :: fst r, snd r)
              | _ => OutOfModel
              end
          | _ => OutOfModel
          end
      end
  end

(** The arguments of a call, after the opening parenthesis. *)
with parse_args (fuel : nat) (ts : list token) {struct fuel}
  : result (list argument * list token) :=
  match fuel with
  | O => OutOfModel
  | S fuel' =>
      match ts with
      | [] => Raise SyntaxError
      | TOp ")" :: ts' => Ok ([], ts')
      | _ =>
          a <- match ts with
               | TName n :: TOp "=" :: ts1 =>
                   match constant_of_name n with
                   | Some _ => OutOfModel
                   | None => v <- parse_expr fuel' ts1 ;; Ok (Keyword n (fst v), snd v)
                   end
               | _ => e <- parse_expr fuel' ts ;; Ok (Positional (fst e), snd e)
               end ;;
          match snd a with
          | [] => Raise SyntaxError
          | TOp ")" :: ts2 => Ok ([fst a], ts2)
          | TOp "," :: ts2 =>
              r <- parse_args fuel' ts2 ;; Ok (fst a :: fst r, snd r)
          | _ => OutOfModel
          end
      end
  end.

(** [ast.parse(text).body] *)
Definition parse (text : string) : result (list stmt) :=
  match text with
  | String c _ =>
      if Ascii.eqb c " " || Ascii.eqb c "009" then OutOfModel
      else
        ts <- lex text LStart ;;
        match ts with
        | [] => Ok []
        | _ =>
            r <- parse_expr (4 * List.length ts + 4) ts ;;
            match snd r with
            | [] => Ok [Expr (fst r)]
            | _ => OutOfModel
            end
        end
  | EmptyString => Ok []
  end.

(** *** [literal_eval] *)

Definition value_of_constant (c : constant) : value :=
  match c with
  | CInt n => VInt n
  | CFloat man exp => VFloat false man exp
  | CStr s => VStr s
  | CBool b => VBool b
  | CNone => VNone
  end.

(** Whether a value can be hashed, as a dictionary key must be. *)
Fixpoint hashable (v : value) : bool :=
  match v with
  | VInt _ | VFloat _ _ _ | VStr _ | VBool _ | VNone => true
  | VList _ | VDict _ | VEmptySet => false
  | VTuple elts => forallb hashable elts
  end.

Definition int_of_bool (b : bool) : Z := if b then 1 else 0.

(** A number as [m * 10 ^ e]. *)
Definition number (v : value) : option (Z * Z) :=
  match v with
  | VInt n => Some (n, 0)
  | VBool b => Some (int_of_bool b, 0)
  | VFloat neg man exp => Some (if neg then - Z.of_N man else Z.of_N man, exp)
  | _ => None
  end.

Definition number_eqb (a b : Z * Z) : bool :=
  let e := Z.min (snd a) (snd b) in
  fst a * 10 ^ (snd a - e) =? fst b * 10 ^ (snd b - e).

(** [a == b] on hashable values.  Numbers compare by value across [int],
    [bool] and [float]; on the floats that the parser reads (fifteen digits
    at most) the decimal comparison is the comparison of the floats. *)
Fixpoint key_eqb (a b : value) : bool :=
  match number a, number b with
  | Some x, Some y => number_eqb x y
  | _, _ =>
      match a, b with
      | VStr x, VStr y => String.eqb x y
      | VNone, VNone => true
      | VTuple xs, VTuple ys =>
          (fix go (l : list value) (m : list value) : bool :=
             match l, m with
             | [], [] => true
             | x :: l', y :: m' => key_eqb x y && go l' m'
             | _, _ => false
             end) xs ys
      | _, _ => false
      end
  end.

(** [d[k] = v] on the items of a dictionary: an equal key keeps its place and
    takes the new value. *)
Fixpoint items_set (items : list (value * value)) (k v : value) : list (value * value) :=
  match items with
  | [] => [(k, v)]
  | (k', v') :: items' =>
      if key_eqb k' k then (k', v) :: items' else (k', v') :: items_set items' k v
  end.

Definition negate (v : value) : value :=
  match v with
  | VInt n => VInt (- n)
  | VFloat neg man exp => VFloat (negb neg) man exp
  | _ => v
  end.

(** The number under a unary sign: an [int] or [float] constant. *)
Definition convert_num (e : expr) : result value :=
  match e with
  | Constant (CInt n) => Ok (VInt n)
  | Constant (CFloat man exp) => Ok (VFloat false man exp)
  | _ => Raise ValueError
  end.

Fixpoint literal_eval (node : expr) : result value :=
  match node with
  | Constant c => Ok (value_of_constant c)
  | Tuple elts => vs <- mapM literal_eval elts ;; Ok (VTuple vs)
  | List elts => vs <- mapM literal_eval elts ;; Ok (VList vs)
  | Call func args keywords =>
      match func, args, keywords with
      | Name id, [], [] => if String.eqb id "set" then Ok VEmptySet else Raise ValueError
      | _, _, _ => Raise ValueError
      end
  | Dict items =>
      (fix go (l : list (expr * expr)) (acc : list (value * value)) : result value :=
         match l with
         | [] => Ok (VDict acc)
         | kv :: l' =>
             k <- literal_eval (fst kv) ;;
             v <- literal_eval (snd kv) ;;
             if hashable k then go l' (items_set acc k v) else Raise TypeError
         end) items []
  | UnaryOp op operand =>
      n <- convert_num operand ;;
      match op with
      | UAdd => Ok n
      | USub => Ok (negate n)
      end
  | _ => Raise ValueError
  end.

End Ast.

(** ** [parse_function_call] *)

(** An entry of the parsed argument list: the name of a positional argument,
    or the pair of a keyword and its value. *)
Inductive arg : Type :=
| Pos (name : string)
| Kw (name : string) (v : value).

(** [arg.id] *)
Definition arg_id (e : Ast.expr) : result string :=
  match e with
  | Ast.Name id => Ok id
  | _ => Raise AttributeError
  end.

(** [(keyword.arg, ast.literal_eval(keyword.value))] *)
Definition keyword_entry (kw : string * Ast.expr) : result arg :=
  v <- Ast.literal_eval (snd kw) ;; Ok (Kw (fst kw) v).

(** The function on the node [tree.body[0].value]. *)
Definition parse_call_node (func_call_node : Ast.expr) : result (list arg) :=
  match func_call_node with
  | Ast.Call _ args keywords =>
      arg_list <- mapM arg_id args ;;
      keyword_list <- mapM keyword_entry keywords ;;
      Ok (map Pos arg_list ++ keyword_list)%list
  | _ => Raise AttributeError
  end.

Definition parse_function_call (func_call_str : string) : result (list arg) :=
  tree <- Ast.parse func_call_str ;;
  match tree with
  | [] => Raise IndexError
  | Ast.Expr func_call_node :: _ => parse_call_node func_call_node
  end.

(** ** [transform_args] *)

Definition parse_arg (arg_ : value) : value :=
  match arg_ with
  | VStr s => VStr ("'" ++ s ++ "'")
  | _ => arg_
  end.

(** [f"{k}={parse_arg(v)}, "] *)
Definition assignment (k : string) (v : value) : string :=
  k ++ "=" ++ Repr.to_str (parse_arg v) ++ ", ".

(** The first loop: over the parsed arguments. *)
Fixpoint args_loop (args : list arg) (map_args : dict value)
    (output : string) (seen_args : set string) : string * set string :=
  match args with
  | [] => (output, seen_args)
  | Pos a :: args' => args_loop args' map_args (output ++ a ++ ", ") seen_args
  | Kw k v :: args' =>
      match dict_find map_args k with
      | None => args_loop args' map_args (output ++ assignment k v) seen_args
      | Some v' =>
          args_loop args' map_args (output ++ assignment k v')
            (set_add string_dec k seen_args)
      end
  end.

(** The second loop: over [map_args.items()]. *)
Fixpoint items_loop (items : dict value) (seen_args : set string) (output : string)
  : string :=
  match items with
  | [] => output
  | (a, arg_val) :: items' =>
      if set_mem string_dec a seen_args then items_loop items' seen_args output
      else items_loop items' seen_args (output ++ assignment a arg_val)
  end.

Definition transform_args (args : list arg) (map_args : dict value) : string :=
  let '(output, seen_args) := args_loop args map_args EmptyString (empty_set string) in
  let output := items_loop map_args seen_args output in
  if String.eqb (Str.slice output (Some (-2)) None) ", "
  then Str.slice output None (Some (-2))
  else output.

(** ** [assign_hyperopt] *)

(** One pass of the inner loop: the call of [function] in [line], if any. *)
Definition rewrite_call (arguments : dict (dict value)) (line function : string)
  : result string :=
  let pattern := function ++ "(" in
  let ind := Str.find pattern line in
  if negb (ind =? -1) then
    end_ind <- find_matching_parenthesis line (ind + Str.len pattern - 1) "(" None ;;
    args <- parse_function_call (Str.slice line (Some ind) (Some (end_ind + 1))) ;;
    map_args <- dict_get arguments function ;;
    Ok (Str.slice line None (Some ind) ++ pattern ++ transform_args args map_args
          ++ Str.slice line (Some end_ind) None)
  else Ok line.

(** The inner loop: over the keys of [space]. *)
Fixpoint rewrite_line (arguments : dict (dict value)) (functions : list string)
    (line : string) : result string :=
  match functions with
  | [] => Ok line
  | function :: functions' =>
      line' <- rewrite_call arguments line function ;;
      rewrite_line arguments functions' line'
  end.

(** The outer loop: over the blocks. *)
Fixpoint lines_loop (arguments : dict (dict value)) (functions : list string)
    (blocks : list string) (blackbox_code : string) : result string :=
  match blocks with
  | [] => Ok blackbox_code
  | line :: blocks' =>
      line' <- rewrite_line arguments functions line ;;
      lines_loop arguments functions blocks' (blackbox_code ++ line' ++ Str.nl)
  end.

(** [{param: d[param] for param in d}] *)
Definition copy_dict {V : Type} (d : dict V) : result (dict V) :=
  mapM (fun p => v <- dict_get d p ;; Ok (p, v)) (dict_keys d).

Definition assign_hyperopt (code : string) (space : dict (dict value)) : result string :=
  arguments <- mapM (fun function =>
                       d <- dict_get space function ;;
                       d' <- copy_dict d ;;
                       Ok (function, d')) (dict_keys space) ;;
  blocks <- convert_to_single_line_blocks code ;;
  lines_loop arguments (dict_keys space) blocks EmptyString.

(** * Specifications

    The notions the properties are stated with: the policy of the argument
    rewriter, the running delta of the segmenter, literal expressions, and
    the inputs of the worked examples. *)

(** The code and the parameter space of the end-to-end example. *)
Definition example_code : string := "model = build(lr=0.1)" ++ Str.nl.

Definition example_space : dict (dict value) :=
  [("build", [("lr", VFloat false 1 (-2)); ("momentum", VFloat false 9 (-1))])].

(** ** The policy of the argument rewriter *)

Module RewritePolicy.

(** The policy in the words of the specification.  A value is rendered in
    single quotes when it is a string and by its literal text otherwise. *)
Definition render (v : value) : string :=
  match v with
  | VStr s => "'" ++ s ++ "'"
  | _ => Repr.repr v
  end.

(** What one original argument becomes: a positional name as it is, a keyword
    with the value of the override mapping when the mapping has its name. *)
Definition emitted (overrides : dict value) (a : arg) : string :=
  match a with
  | Pos name => name
  | Kw name v =>
      name ++ "=" ++ render (match dict_find overrides name with
                            | Some v' => v'
                            | None => v
                            end)
  end.

Definition keyword_names (args : list arg) : list string :=
  flat_map (fun a => match a with Pos _ => [] | Kw name _ => [name] end) args.

(** The entries of the mapping whose name is no keyword of the call. *)
Definition unseen (args : list arg) (overrides : dict value) : dict value :=
  filter (fun kv => negb (existsb (String.eqb (fst kv)) (keyword_names args))) overrides.

Definition appended (kv : string * value) : string := fst kv ++ "=" ++ render (snd kv).

Definition rewrite_args_spec (args : list arg) (overrides : dict value) : string :=
  Str.join ", " (map (emitted overrides) args ++ map appended (unseen args overrides)).

End RewritePolicy.

(** ** The running delta of the segmenter *)

Module Segments.

(** Opening minus closing round brackets of one physical line. *)
Definition line_delta (line : string) : Z := Str.count "(" line - Str.count ")" line.

(** The delta after each physical line, starting from [before]. *)
Fixpoint running_deltas (lines : list string) (before : Z) : list Z :=
  match lines with
  | [] => []
  | line :: lines' =>
      let d := before + line_delta line in d :: running_deltas lines' d
  end.

Definition goes_negative (deltas : list Z) : bool := existsb (fun d => d <? 0) deltas.

Definition final_delta (deltas : list Z) (before : Z) : Z := List.last deltas before.

(** Physical lines grouped into logical statements: a group ends with the
    line after which the delta is zero.  [pending] holds the lines of the
    group that is still open. *)
Fixpoint group (lines : list string) (deltas : list Z) (pending : list string)
  : list (list string) :=
  match lines, deltas with
  | line :: lines', d :: deltas' =>
      if d =? 0 then (pending ++ [line])%list :: group lines' deltas' []
      else group lines' deltas' (pending ++ [line])%list
  | _, _ => []
  end.

(** The text of a logical statement: its lines, normalised, one after the
    other. *)
Definition statement_text (lines : list string) : string :=
  Str.cat (map Re.sub_strip lines).

Definition statements (lines : list string) : list string :=
  map statement_text (group lines (running_deltas lines 0) []).

Definition malformed (lines : list string) : bool :=
  let deltas := running_deltas lines 0 in
  goes_negative deltas || negb (final_delta deltas 0 =? 0).

End Segments.


(** No key of the space, followed by an opening bracket, occurs in [line]. *)
Definition no_target (functions : list string) (line : string) : Prop :=
  forall f, In f functions -> Str.find (f ++ "(") line = -1.

(** ** Literal expressions *)

Module Literals.

Import Ast.

Definition is_name (e : expr) : bool :=
  match e with Name _ => true | _ => false end.

Definition is_number (e : expr) : bool :=
  match e with
  | Constant (CInt _) | Constant (CFloat _ _) => true
  | _ => false
  end.

(** The expression [set()]. *)
Definition is_empty_set_call (e : expr) : bool :=
  match e with
  | Call (Name id) [] [] => String.eqb id "set"
  | _ => false
  end.

(** Whether the value an expression denotes can be a dictionary key: numbers,
    strings, booleans, [None], and tuples of such. *)
Fixpoint hashable_expr (e : expr) : bool :=
  match e with
  | Constant _ => true
  | UnaryOp _ _ => true
  | Tuple elts => forallb hashable_expr elts
  | _ => false
  end.

(** Literal expressions: numbers, with or without a sign, strings, booleans,
    [None], and the lists, tuples and mappings built from literal
    expressions, the keys of a mapping being hashable.  With [with_set] the
    call [set()] counts as one too. *)
Fixpoint literal (with_set : bool) (e : expr) : bool :=
  match e with
  | Constant _ => true
  | UnaryOp _ operand => is_number operand
  | Tuple elts | List elts => forallb (literal with_set) elts
  | Dict items =>
      forallb (fun kv => literal with_set (fst kv) && hashable_expr (fst kv)
                         && literal with_set (snd kv)) items
  | Call _ _ _ => with_set && is_empty_set_call e
  | Name _ | Attribute _ _ => false
  end.

End Literals.

Section LiteralEvaluation.

Import Ast Literals.

(** Induction on expressions that reaches the expressions inside lists. *)
Fixpoint expr_nested_ind (P : Ast.expr -> Prop)
    (HName : forall id, P (Name id))
    (HConstant : forall c, P (Constant c))
    (HTuple : forall elts, Forall P elts -> P (Tuple elts))
    (HList : forall elts, Forall P elts -> P (List elts))
    (HDict : forall items,
        Forall (fun kv => P (fst kv) /\ P (snd kv)) items -> P (Dict items))
    (HUnaryOp : forall op operand, P operand -> P (UnaryOp op operand))
    (HAttribute : forall obj attr, P obj -> P (Attribute obj attr))
    (HCall : forall func args keywords,
        P func -> Forall P args -> Forall (fun kw => P (snd kw)) keywords ->
        P (Call func args keywords))
    (e : expr) {struct e} : P e :=
  let rec := expr_nested_ind P HName HConstant HTuple HList HDict HUnaryOp
               HAttribute HCall in
  let all := fix all (l : list expr) : Forall P l :=
               match l with
               | [] => Forall_nil P
               | x :: l' => Forall_cons x (rec x) (all l')
               end in
  match e with
  | Name id => HName id
  | Constant c => HConstant c
  | Tuple elts => HTuple elts (all elts)
  | List elts => HList elts (all elts)
  | Dict items =>
      HDict items
        ((fix go (l : list (expr * expr)) : Forall (fun kv => P (fst kv) /\ P (snd kv)) l :=
            match l with
            | [] => Forall_nil _
            | kv :: l' => Forall_cons kv (conj (rec (fst kv)) (rec (snd kv))) (go l')
            end) items)
  | UnaryOp op operand => HUnaryOp op operand (rec operand)
  | Attribute obj attr => HAttribute obj attr (rec obj)
  | Call func args keywords =>
      HCall func args keywords (rec func) (all args)
        ((fix go (l : list (string * expr)) : Forall (fun kw => P (snd kw)) l :=
            match l with
            | [] => Forall_nil _
            | kw :: l' => Forall_cons kw (rec (snd kw)) (go l')
            end) keywords)
  end.

(** What [literal_eval] does on an expression, by its syntax. *)
Definition evaluates (e : expr) : Prop :=
  if literal true e
  then exists v, literal_eval e = Ok v /\ hashable v = hashable_expr e
  else raises (literal_eval e).

End LiteralEvaluation.

(** ** The count of brackets character by character *)

(** The count of opening minus closing round brackets after each character
    of a text, starting from [before]. *)
Fixpoint char_deltas (s : string) (before : Z) : list Z :=
  match s with
  | EmptyString => []
  | String c s' =>
      let d := before + (if Ascii.eqb c "(" then 1 else 0)
               - (if Ascii.eqb c ")" then 1 else 0) in
      d :: char_deltas s' d
  end.

(** ** Notions for the further properties *)

(** The text without its white-space characters. *)
Fixpoint without_space (s : string) : string :=
  match s with
  | EmptyString => EmptyString
  | String c s' =>
      if Str.isspace c then without_space s' else String c (without_space s')
  end.

(** [space_deleted s r]: the text [r] is the text [s] with some of its
    white-space characters deleted. *)
Inductive space_deleted : string -> string -> Prop :=
| deleted_none : space_deleted EmptyString EmptyString
| deleted_keep (c : ascii) (s r : string) :
    space_deleted s r -> space_deleted (String c s) (String c r)
| deleted_drop (c : ascii) (s r : string) :
    Str.isspace c = true -> space_deleted s r -> space_deleted (String c s) r.

(** The delimiter types of [parenthesis_pairs]. *)
Definition supported_delimiters : list string :=
  ["("; "{"; "["; "'"; Str.char Str.dquote].

(** Where the bracket that is open before [rest] closes: the number of
    characters of [rest] before the closing delimiter that brings the count
    [n_open] of open brackets to zero. *)
Fixpoint close_offset (o c : ascii) (rest : string) (n_open : Z) : option nat :=
  match rest with
  | EmptyString => None
  | String ch rest' =>
      if Ascii.eqb ch o then option_map S (close_offset o c rest' (n_open + 1))
      else if Ascii.eqb ch c then
        if n_open - 1 =? 0 then Some O
        else option_map S (close_offset o c rest' (n_open - 1))
      else option_map S (close_offset o c rest' n_open)
  end.

Module Overrides.

(** An argument list with a mapping applied to it as data: each keyword
    takes the value of the mapping when the mapping has its name, and the
    entries of the mapping that name no keyword of the list follow.  (It is
    built from the list, not read back from the text that is written.) *)
Definition override (overrides : dict value) (a : arg) : arg :=
  match a with
  | Pos name => Pos name
  | Kw name v =>
      Kw name (match dict_find overrides name with Some v' => v' | None => v end)
  end.

Definition overridden (overrides : dict value) (args : list arg) : list arg :=
  (map (override overrides) args
   ++ map (fun kv => Kw (fst kv) (snd kv)) (RewritePolicy.unseen args overrides))%list.

End Overrides.

(** ** What the transform does to a statement *)

(** The mapping that [assign_hyperopt] holds for a key: the copy it makes
    of the entry of the space. *)
Definition overrides_of (space : dict (dict value)) (function : string)
  : result (dict value) :=
  d <- dict_get space function ;; copy_dict d.

(** One pass for the key [function].  Either the key followed by an opening
    bracket does not occur, and the statement is kept; or the statement is
    [before], the key, an opening bracket, [inner], a closing bracket and
    [after], where the occurrence of the key is the first one and the closing
    bracket is the one that matches the opening one, and only [inner] is
    replaced: by the argument list written for the parsed call and the
    mapping of the key. *)
Inductive call_rewritten (space : dict (dict value)) (function line : string)
  : string -> Prop :=
| call_absent :
    Str.find (function ++ "(") line = -1 ->
    call_rewritten space function line line
| call_spliced (before inner after : string) (args : list arg) (map_args : dict value) :
    line = before ++ function ++ "(" ++ inner ++ ")" ++ after ->
    Str.find (function ++ "(") line = Str.len before ->
    close_offset "(" ")" (inner ++ ")" ++ after) 1 = Some (String.length inner) ->
    parse_function_call (function ++ "(" ++ inner ++ ")") = Ok args ->
    overrides_of space function = Ok map_args ->
    call_rewritten space function line
      (before ++ function ++ "(" ++ transform_args args map_args ++ ")" ++ after).

(** One pass for each key, in the order of the keys, each on the text that
    the pass before it left. *)
Inductive statement_rewritten (space : dict (dict value))
  : list string -> string -> string -> Prop :=
| passes_done (line : string) : statement_rewritten space [] line line
| passes_step (function : string) (functions : list string) (line mid line' : string) :
    call_rewritten space function line mid ->
    statement_rewritten space functions mid line' ->
    statement_rewritten space (function :: functions) line line'.

(** * Properties *)

(** ** Strings *)

Section StringFacts.

Lemma append_nil_r (s : string) : s ++ "" = s.
Proof. induction s as [|c s IH]; simpl; [reflexivity | now rewrite IH]. Qed.

Lemma append_assoc (a b c : string) : (a ++ b) ++ c = a ++ (b ++ c).
Proof. induction a as [|x a IH]; simpl; [reflexivity | now rewrite IH]. Qed.

Lemma length_append (a b : string) :
  String.length (a ++ b) = (String.length a + String.length b)%nat.
Proof. induction a as [|x a IH]; simpl; [reflexivity | now rewrite IH]. Qed.

Lemma substring_all (s : string) : String.substring 0 (String.length s) s = s.
Proof. induction s as [|c s IH]; simpl; [reflexivity | now rewrite IH]. Qed.

Lemma substring_append_l (a b : string) :
  String.substring 0 (String.length a) (a ++ b) = a.
Proof.
  induction a as [|x a IH]; simpl.
  - destruct b; reflexivity.
  - now rewrite IH.
Qed.

Lemma substring_append_r (a b : string) (m : nat) :
  String.substring (String.length a) m (a ++ b) = String.substring 0 m b.
Proof. induction a as [|x a IH]; simpl; [reflexivity | exact IH]. Qed.

Lemma length_drop (n : nat) (s : string) :
  String.length (Str.drop n s) = (String.length s - n)%nat.
Proof.
  revert s; induction n as [|n IH]; intros s; simpl.
  - now rewrite Nat.sub_0_r.
  - destruct s as [|c s]; simpl; [reflexivity | apply IH].
Qed.

(** The last two characters of a text that ends in a separator, and the text
    before them. *)
Lemma slice_last_two (x : string) : Str.slice (x ++ ", ") (Some (-2)) None = ", ".
Proof.
  unfold Str.slice, Str.clamp, Str.len.
  rewrite length_append; simpl String.length.
  set (n := String.length x).
  replace (Z.of_nat (n + 2)) with (Z.of_nat n + 2) by lia.
  replace (-2 <? 0) with true by reflexivity.
  replace (-2 + (Z.of_nat n + 2)) with (Z.of_nat n) by lia.
  destruct (Z.of_nat n <? 0) eqn:E1; [lia|].
  destruct (Z.of_nat n + 2 <? Z.of_nat n) eqn:E2; [lia|].
  destruct (Z.of_nat n + 2 <=? Z.of_nat n) eqn:E3; [lia|].
  rewrite Nat2Z.id.
  replace (Z.to_nat (Z.of_nat n + 2 - Z.of_nat n)) with 2%nat by lia.
  subst n. rewrite substring_append_r. reflexivity.
Qed.

Lemma slice_but_last_two (x : string) : Str.slice (x ++ ", ") None (Some (-2)) = x.
Proof.
  unfold Str.slice, Str.clamp, Str.len.
  rewrite length_append; simpl String.length.
  set (n := String.length x).
  replace (Z.of_nat (n + 2)) with (Z.of_nat n + 2) by lia.
  replace (-2 <? 0) with true by reflexivity.
  replace (-2 + (Z.of_nat n + 2)) with (Z.of_nat n) by lia.
  destruct (Z.of_nat n <? 0) eqn:E1; [lia|].
  destruct (Z.of_nat n + 2 <? Z.of_nat n) eqn:E2; [lia|].
  destruct (Z.of_nat n <=? 0) eqn:E3.
  - assert (n = 0%nat) by lia. subst n.
    destruct x; [reflexivity | discriminate].
  - rewrite Z.sub_0_r, Nat2Z.id. subst n. apply substring_append_l.
Qed.

Lemma cat_app (l1 l2 : list string) : Str.cat (l1 ++ l2) = Str.cat l1 ++ Str.cat l2.
Proof.
  induction l1 as [|s l1 IH]; simpl; [reflexivity|].
  now rewrite IH, append_assoc.
Qed.

End StringFacts.

(** ** The substitution always terminates within its fuel *)

Section SubstitutionTotal.

Lemma lazy_dots_bound (rest : string) (adv : bool) (n : nat) :
  Re.lazy_dots rest adv = Some n ->
  (n < String.length rest)%nat /\ (adv = true -> (0 < n)%nat).
Proof.
  revert adv n; induction rest as [|c rest IH]; intros adv n; simpl.
  - discriminate.
  - destruct (Re.is_close c && negb adv) eqn:E.
    + intros [= <-]. split; [lia|].
      intros ->. rewrite andb_false_r in E. discriminate.
    + destruct (Ascii.eqb c Str.newline); [discriminate|].
      destruct (Re.lazy_dots rest false) as [k|] eqn:El; [|discriminate].
      intros [= <-]. destruct (IH _ _ El) as [Hk _]. split; lia.
Qed.

Lemma match_here_bound (prev : option ascii) (rest : string) (adv : bool) (n : nat) :
  Re.match_here prev rest adv = Some n ->
  (n <= String.length rest)%nat /\ (adv = true -> (0 < n)%nat).
Proof.
  unfold Re.match_here, Re.alt_space_punct, Re.alt_inside_brackets.
  destruct rest as [|a [|b rest]]; simpl.
  - destruct prev as [p|]; [destruct (Re.is_open p)|]; discriminate.
  - destruct prev as [p|]; [destruct (Re.is_open p)|]; try discriminate.
    intros H. apply (lazy_dots_bound (String a EmptyString)) in H.
    destruct H as [H1 H2]. split; [apply Nat.lt_le_incl, H1 | exact H2].
  - destruct (Str.isspace a && Re.is_punct b).
    + intros [= <-]. split; lia.
    + destruct prev as [p|]; [destruct (Re.is_open p)|]; try discriminate.
      intros H. apply (lazy_dots_bound (String a (String b rest))) in H.
      destruct H as [H1 H2]. split; [apply Nat.lt_le_incl, H1 | exact H2].
Qed.

Lemma sub_loop_total (fuel : nat) :
  forall (prev : option ascii) (rest : string) (adv : bool),
    (2 * String.length rest + (if adv then 1 else 2) <= fuel)%nat ->
    exists r, Re.sub_loop fuel prev rest adv = Some r.
Proof.
  induction fuel as [|fuel IH]; intros prev rest adv Hf.
  - destruct adv; lia.
  - simpl. destruct (Re.match_here prev rest adv) as [n|] eqn:Em.
    + apply match_here_bound in Em. destruct Em as [Hn Hadv].
      destruct (IH (Str.last (String.substring 0 n rest) prev) (Str.drop n rest)
                  (Nat.eqb n 0)) as [r Hr].
      * rewrite length_drop.
        destruct (Nat.eqb n 0) eqn:En.
        -- apply Nat.eqb_eq in En. subst n.
           destruct adv; [specialize (Hadv eq_refl); lia | lia].
        -- apply Nat.eqb_neq in En. destruct adv; lia.
      * rewrite Hr. simpl. eauto.
    + destruct rest as [|c rest]; [eauto|].
      destruct (IH (Some c) rest false) as [r Hr]; [simpl in Hf; destruct adv; lia|].
      rewrite Hr. simpl. eauto.
Qed.

(** [Re.sub_strip] is the result of the loop, never its default. *)
Lemma sub_strip_defined (line : string) :
  Re.sub_loop (Re.sub_fuel line) None line false = Some (Re.sub_strip line).
Proof.
  unfold Re.sub_strip.
  destruct (sub_loop_total (Re.sub_fuel line) None line false) as [r Hr].
  - unfold Re.sub_fuel. lia.
  - now rewrite Hr.
Qed.

End SubstitutionTotal.

(** ** The worked example of the top-level transform *)

(** C1, as stated, does not hold: on the code [model = build(lr=0.1)] ended
    by a line break and the space [{build: {lr: 0.01, momentum: 0.9}}] the
    result of [assign_hyperopt] is not the rewritten line followed by one
    line break. *)
Lemma inject_example_not_single_newline :
  assign_hyperopt example_code example_space
  <> Ok ("model = build(lr=0.01, momentum=0.9)" ++ Str.nl).
Proof. vm_compute. discriminate. Qed.

(** C1 (amended): on that input [assign_hyperopt] returns the line with [lr]
    overridden to 0.01 and [momentum=0.9] appended, followed by two line
    breaks: the empty text after the final line break of the input is a block
    of its own and is emitted as an empty line. *)
Theorem inject_example :
  assign_hyperopt example_code example_space
  = Ok ("model = build(lr=0.01, momentum=0.9)" ++ Str.nl ++ Str.nl).
Proof. vm_compute. reflexivity. Qed.

(** The blocks of the example: the line and the empty text after it. *)
Lemma example_blocks :
  convert_to_single_line_blocks example_code = Ok ["model = build(lr=0.1)"; ""].
Proof. vm_compute. reflexivity. Qed.

(** ** [find_matching_parenthesis] on quotes *)

Section QuoteDelimiters.

Lemma index_ok_or_raises (s : string) (i : Z) :
  (exists c, Str.index s i = Ok c) \/ Str.index s i = Raise IndexError.
Proof.
  unfold Str.index.
  destruct ((_ <? 0) || (_ <=? _)); [now right|].
  destruct (String.get _ s); [left; eauto | now right].
Qed.

(** When the closing delimiter is the opening one, the first branch of the
    loop takes every occurrence and the counter never comes down. *)
Lemma scan_same_delimiter (line q : string) (indices : list Z) :
  forall n_open, raises (scan_parenthesis line q q indices n_open).
Proof.
  induction indices as [|i indices IH]; intros n_open; simpl.
  - raises_with IndexError.
  - destruct (index_ok_or_raises line i) as [[c ->] | ->]; simpl.
    + destruct (String.eqb c q); apply IH.
    + raises_with IndexError.
Qed.

Lemma find_matching_same_delimiter (line : string) (start_ind : Z) (q : string) :
  default_matching q = Ok q ->
  raises (find_matching_parenthesis line start_ind q None).
Proof.
  intros Hq. unfold find_matching_parenthesis.
  destruct (index_ok_or_raises line start_ind) as [[c ->] | ->]; cbn [bind].
  - destruct (String.eqb c q); cbn [negb].
    + rewrite Hq. cbn [bind]. apply scan_same_delimiter.
    + raises_with AssertionError.
  - raises_with IndexError.
Qed.

End QuoteDelimiters.

(** C3: at the quoted text ['a'] with the opening quote at index 0 the matcher
    raises [IndexError] instead of returning index 2, and so it does for the
    double quote; with a quote as the delimiter type the matcher returns no
    index on any line and start index, it always raises. *)
Theorem quote_delimiter_never_matched :
  find_matching_parenthesis "'a'" 0 "'" None = Raise IndexError
  /\ find_matching_parenthesis
       (String Str.dquote (String "a" (String Str.dquote EmptyString))) 0
       (Str.char Str.dquote) None = Raise IndexError
  /\ (forall (line : string) (start_ind : Z),
        raises (find_matching_parenthesis line start_ind "'" None))
  /\ (forall (line : string) (start_ind : Z),
        raises (find_matching_parenthesis line start_ind (Str.char Str.dquote) None)).
Proof.
  split; [reflexivity|]. split; [reflexivity|].
  split; intros line start_ind; apply find_matching_same_delimiter; reflexivity.
Qed.

(** The matcher on round brackets, the example of the specification. *)
Lemma match_delimiter_example : find_matching_parenthesis "f(a,b)" 1 "(" None = Ok 5.
Proof. reflexivity. Qed.

(** ** [transform_args] on empty input *)

(** C10: on an empty argument list and an empty mapping [transform_args]
    returns the empty string; the test for a trailing separator reads the
    empty slice and nothing is cut. *)
Theorem rewrite_args_empty :
  transform_args [] [] = EmptyString
  /\ Str.slice EmptyString (Some (-2)) None = EmptyString.
Proof. split; reflexivity. Qed.

(** ** [transform_args] against its policy *)

Section RewriteProof.

Import RewritePolicy.

Lemma to_str_parse_arg (v : value) : Repr.to_str (parse_arg v) = render v.
Proof. destruct v; reflexivity. Qed.

Lemma assignment_render (k : string) (v : value) :
  assignment k v = (k ++ "=" ++ render v) ++ ", ".
Proof.
  unfold assignment. rewrite to_str_parse_arg.
  now rewrite !append_assoc.
Qed.

Let piece (b : string) : string := b ++ ", ".

Lemma args_loop_output (overrides : dict value) (args : list arg) :
  forall output seen,
    fst (args_loop args overrides output seen)
    = output ++ Str.cat (map piece (map (emitted overrides) args)).
Proof.
  induction args as [|a args IH]; intros output seen; simpl.
  - now rewrite append_nil_r.
  - destruct a as [name | name v].
    + rewrite IH. unfold piece. now rewrite !append_assoc.
    + cbn [emitted map].
      destruct (dict_find overrides name) as [v'|];
        rewrite IH, assignment_render; unfold piece; now rewrite !append_assoc.
Qed.

Lemma args_loop_seen (overrides : dict value) (args : list arg) (k : string) :
  forall output seen,
    set_In k (snd (args_loop args overrides output seen))
    <-> set_In k seen \/ (In k (keyword_names args) /\ dict_find overrides k <> None).
Proof.
  induction args as [|a args IH]; intros output seen; simpl.
  - tauto.
  - destruct a as [name | name v]; simpl.
    + apply IH.
    + destruct (dict_find overrides name) as [v'|] eqn:Ef; rewrite IH.
      * rewrite set_add_iff. split.
        -- intros [[-> | H] | [H1 H2]]; [right; split; [now left | congruence] | tauto | tauto].
        -- intros [H | [[-> | H1] H2]]; tauto.
      * split.
        -- tauto.
        -- intros [H | [[-> | H1] H2]]; tauto.
Qed.

Lemma items_loop_output (seen : set string) (items : dict value) :
  forall output,
    items_loop items seen output
    = output ++ Str.cat (map piece (map appended
        (filter (fun kv => negb (set_mem string_dec (fst kv) seen)) items))).
Proof.
  induction items as [|[a v] items IH]; intros output; simpl.
  - now rewrite append_nil_r.
  - destruct (set_mem string_dec a seen); simpl.
    + apply IH.
    + rewrite IH, assignment_render. unfold piece, appended. simpl.
      now rewrite !append_assoc.
Qed.

Lemma dict_find_in {V : Type} (d : dict V) (k : string) (v : V) :
  In (k, v) d -> dict_find d k <> None.
Proof.
  induction d as [|[k' v'] d IH]; simpl; [tauto|].
  intros [[= -> ->] | H].
  - now rewrite String.eqb_refl.
  - destruct (String.eqb k' k); [discriminate | auto].
Qed.

Lemma existsb_eqb_in (k : string) (l : list string) :
  existsb (String.eqb k) l = true <-> In k l.
Proof.
  rewrite existsb_exists. split.
  - intros [x [Hx He]]. apply String.eqb_eq in He. now subst.
  - intros H. exists k. split; [assumption | apply String.eqb_refl].
Qed.

(** Pieces that each end in the separator, the last separator cut. *)
Lemma pieces_join (b : string) (bs : list string) :
  Str.cat (map piece (b :: bs)) = Str.join ", " (b :: bs) ++ ", ".
Proof.
  revert b; induction bs as [|b' bs IH]; intros b.
  - simpl. unfold piece. now rewrite append_nil_r.
  - change (Str.cat (map piece (b :: b' :: bs)))
      with (piece b ++ Str.cat (map piece (b' :: bs))).
    rewrite IH. unfold piece.
    change (Str.join ", " (b :: b' :: bs)) with (b ++ ", " ++ Str.join ", " (b' :: bs)).
    now rewrite !append_assoc.
Qed.

Lemma strip_last_separator (bs : list string) :
  (let output := Str.cat (map piece bs) in
   if String.eqb (Str.slice output (Some (-2)) None) ", "
   then Str.slice output None (Some (-2))
   else output)
  = Str.join ", " bs.
Proof.
  destruct bs as [|b bs]; [reflexivity|].
  cbv zeta. rewrite pieces_join, slice_last_two, slice_but_last_two. reflexivity.
Qed.

Lemma transform_args_spec (args : list arg) (overrides : dict value) :
  transform_args args overrides = rewrite_args_spec args overrides.
Proof.
  unfold transform_args, rewrite_args_spec.
  pose proof (args_loop_output overrides args EmptyString (empty_set string)) as Hout.
  pose proof (fun k => args_loop_seen overrides args k EmptyString (empty_set string)) as Hseen.
  destruct (args_loop args overrides EmptyString (empty_set string)) as [output seen].
  simpl in Hout, Hseen. subst output.
  rewrite items_loop_output.
  assert (Hf : filter (fun kv => negb (set_mem string_dec (fst kv) seen)) overrides
               = unseen args overrides).
  { unfold unseen. apply filter_ext_in. intros [k v] Hin. simpl. f_equal.
    apply eq_true_iff_eq. rewrite existsb_eqb_in. split.
    - intros H. apply set_mem_correct1 in H. apply Hseen in H. tauto.
    - intros H. apply set_mem_correct2, Hseen. right. split; [assumption|].
      eapply dict_find_in; eassumption. }
  rewrite Hf, <- cat_app, <- map_app.
  exact (strip_last_separator _).
Qed.

End RewriteProof.

(** C2: [transform_args] emits the original arguments in their order, a
    keyword whose name is in the override mapping with the value of the
    mapping, then every entry of the mapping whose name is no keyword of the
    original call, separated by a comma and a space with no separator after
    the last; on the example it returns [x, lr=0.01, momentum=0.9]. *)
Theorem rewrite_args_policy :
  (forall (args : list arg) (overrides : dict value),
      transform_args args overrides
      = RewritePolicy.rewrite_args_spec args overrides)
  /\ transform_args [Pos "x"; Kw "lr" (VFloat false 1 (-1))]
       [("lr", VFloat false 1 (-2)); ("momentum", VFloat false 9 (-1))]
     = "x, lr=0.01, momentum=0.9".
Proof. split; [exact transform_args_spec | reflexivity]. Qed.

(** ** [convert_to_single_line_blocks] against the running delta *)

Section SegmentProof.

Import Segments.

Lemma final_delta_cons (d : Z) (deltas : list Z) (before : Z) :
  final_delta (d :: deltas) before = final_delta deltas d.
Proof.
  unfold final_delta. destruct deltas as [|z deltas]; [reflexivity|].
  change (last (d :: z :: deltas) before) with (last (z :: deltas) before).
  revert z. induction deltas as [|y deltas IH]; intros z; [reflexivity|].
  change (last (z :: y :: deltas) before) with (last (y :: deltas) before).
  change (last (z :: y :: deltas) d) with (last (y :: deltas) d).
  apply IH.
Qed.

Lemma statement_text_snoc (pending : list string) (line : string) :
  statement_text (pending ++ [line])%list = statement_text pending ++ Re.sub_strip line.
Proof.
  unfold statement_text. rewrite map_app, cat_app. simpl. now rewrite append_nil_r.
Qed.

(** The loop started in the middle of a statement: [new_block] is the text of
    the pending lines and [n_diff] the delta so far. *)
Lemma blocks_loop_spec (lines : list string) :
  forall (blocks pending : list string) (n_diff : Z),
    blocks_loop lines blocks (statement_text pending) n_diff
    = if goes_negative (running_deltas lines n_diff)
         || negb (final_delta (running_deltas lines n_diff) n_diff =? 0)
      then Raise AssertionError
      else Ok (blocks ++ map statement_text
                 (group lines (running_deltas lines n_diff) pending))%list.
Proof.
  induction lines as [|line lines IH]; intros blocks pending n_diff.
  - simpl. unfold final_delta. simpl.
    destruct (n_diff =? 0); simpl; [now rewrite app_nil_r | reflexivity].
  - cbn [blocks_loop running_deltas goes_negative existsb group].
    fold (line_delta line). set (d := n_diff + line_delta line).
    fold (goes_negative (running_deltas lines d)).
    rewrite final_delta_cons.
    destruct (d <? 0) eqn:Hneg; [reflexivity|].
    rewrite <- statement_text_snoc.
    destruct (d =? 0) eqn:Hz.
    + apply Z.eqb_eq in Hz. rewrite Hz in *.
      change EmptyString with (statement_text []).
      rewrite IH. simpl orb.
      destruct (goes_negative _ || negb _); [reflexivity|].
      cbn [map]. now rewrite <- app_assoc.
    + rewrite IH. reflexivity.
Qed.

Lemma convert_spec (code : string) :
  convert_to_single_line_blocks code
  = if malformed (Str.split Str.newline code) then Raise AssertionError
    else Ok (statements (Str.split Str.newline code)).
Proof.
  unfold convert_to_single_line_blocks, malformed, statements.
  change EmptyString with (statement_text []).
  now rewrite blocks_loop_spec.
Qed.

(** Grouping loses no line and keeps their order. *)
Lemma group_cover (lines : list string) :
  forall (pending : list string) (before : Z),
    final_delta (running_deltas lines before) before = 0 ->
    (lines = [] -> pending = []) ->
    List.concat (group lines (running_deltas lines before) pending) = (pending ++ lines)%list.
Proof.
  induction lines as [|line lines IH]; intros pending before Hfin Hp.
  - simpl. rewrite (Hp eq_refl). reflexivity.
  - cbn [running_deltas group]. set (d := before + line_delta line) in *.
    assert (Hlast : final_delta (running_deltas lines d) d = 0).
    { cbn [running_deltas] in Hfin. fold d in Hfin.
      now rewrite final_delta_cons in Hfin. }
    destruct (d =? 0) eqn:Hz.
    + cbn [List.concat]. rewrite IH; [now rewrite <- app_assoc | assumption | reflexivity].
    + rewrite IH; [now rewrite <- app_assoc | assumption |].
      intros ->. unfold final_delta in Hlast. simpl in Hlast. lia.
Qed.

Lemma statement_text_concat (groups : list (list string)) :
  Str.cat (map statement_text groups) = statement_text (List.concat groups).
Proof.
  induction groups as [|g groups IH]; simpl; [reflexivity|].
  rewrite IH. unfold statement_text. now rewrite map_app, cat_app.
Qed.

(** The statements that are returned, joined, are the normalised lines of the
    input, joined: no line is lost, none is moved. *)
Lemma convert_cover (code : string) (blocks : list string) :
  convert_to_single_line_blocks code = Ok blocks ->
  Str.cat blocks = Str.cat (map Re.sub_strip (Str.split Str.newline code)).
Proof.
  rewrite convert_spec. unfold malformed.
  destruct (goes_negative _); [discriminate|]. simpl.
  destruct (_ =? 0) eqn:Hz; [|discriminate]. simpl.
  intros [= <-]. apply Z.eqb_eq in Hz.
  unfold statements. rewrite statement_text_concat, group_cover; auto.
Qed.

End SegmentProof.

(** The delta is looked at after a whole physical line, not inside it: a line
    that closes a bracket before it opens one is a statement. *)
Lemma delta_within_line : convert_to_single_line_blocks ")(" = Ok [")("].
Proof. vm_compute. reflexivity. Qed.

(** A call over three physical lines becomes one statement. *)
Lemma segment_example :
  convert_to_single_line_blocks
    ("y = f(" ++ Str.nl ++ "  a , b" ++ Str.nl ++ ")" ++ Str.nl ++ "z = 1")
  = Ok ["y = f(  a, b)"; "z = 1"].
Proof. vm_compute. reflexivity. Qed.

(** A closing bracket on a line of its own, with none open, is rejected. *)
Lemma segment_stray_closing :
  convert_to_single_line_blocks ("f(x)" ++ Str.nl ++ ")" ++ Str.nl ++ "(") = Raise AssertionError.
Proof. vm_compute. reflexivity. Qed.

(** C4, as stated, does not hold: in the one-line input of a closing
    bracket followed by an opening one the count of opening minus closing
    brackets so far is negative after the first character, the closing
    bracket has no opening one before it, and
    [convert_to_single_line_blocks] returns the line as a statement. *)
Lemma stray_closing_within_line :
  char_deltas ")(" 0 = [-1; 0]
  /\ Segments.goes_negative (char_deltas ")(" 0) = true
  /\ convert_to_single_line_blocks ")(" = Ok [")("].
Proof. repeat split; vm_compute; reflexivity. Qed.

(** C4 (amended): with the delta taken after each whole physical line,
    [convert_to_single_line_blocks] raises [AssertionError], and so returns
    nothing, exactly when the delta is negative after some line or is not zero
    after the last one; on every other input it returns all the logical
    statements in order, each the normalised lines up to the next return of
    the delta to zero. *)
Theorem segment_balance (code : string) :
  convert_to_single_line_blocks code
  = if Segments.malformed (Str.split Str.newline code)
    then Raise AssertionError
    else Ok (Segments.statements (Str.split Str.newline code)).
Proof. exact (convert_spec code). Qed.

(** ** Brackets inside string literals *)


(** ** Strings rendered without escaping *)

(** C6: a string value is rendered between single quotes with its text as it
    is, every other value by its literal text; so for the parsed argument [a]
    with the string value [it's] and no override, [transform_args] returns
    [a='it's'], which is not the argument list of a call: [f(a='it's')] is a
    syntax error.  The same string inside a list is rendered by [repr], in
    double quotes, and the call parses. *)
Theorem quoted_string_breaks_syntax :
  (forall v : value, Repr.to_str (parse_arg v) = RewritePolicy.render v)
  /\ transform_args [Kw "a" (VStr "it's")] [] = "a='it's'"
  /\ Ast.parse ("f(" ++ transform_args [Kw "a" (VStr "it's")] [] ++ ")")
     = Raise SyntaxError
  /\ Ast.parse ("f(" ++ transform_args [Kw "a" (VList [VStr "it's"])] [] ++ ")")
     = Ok [Ast.Expr (Ast.Call (Ast.Name "f") []
                       [("a", Ast.List [Ast.Constant (Ast.CStr "it's")])])].
Proof.
  split; [exact to_str_parse_arg|].
  repeat split; vm_compute; reflexivity.
Qed.

(** An override value with a quote breaks the output in the same way. *)
Lemma quoted_override_breaks_syntax :
  transform_args [Pos "x"] [("name", VStr "it's")] = "x, name='it's'"
  /\ Ast.parse "f(x, name='it's')" = Raise SyntaxError.
Proof. split; vm_compute; reflexivity. Qed.

(** ** [parse_function_call] on a call node *)

Section CallShape.

Lemma mapM_arg_id_names (names : list string) :
  mapM arg_id (map Ast.Name names) = Ok names.
Proof.
  induction names as [|n names IH]; [reflexivity|].
  cbn [map mapM]. fold (mapM arg_id). cbn [arg_id bind]. now rewrite IH.
Qed.

Lemma mapM_keyword_entry (keywords : list (string * Ast.expr)) :
  forall vals,
    mapM Ast.literal_eval (map snd keywords) = Ok vals ->
    mapM keyword_entry keywords
    = Ok (map (fun kv => Kw (fst kv) (snd kv)) (combine (map fst keywords) vals)).
Proof.
  induction keywords as [|[k e] keywords IH]; intros vals.
  - intros [= <-]. reflexivity.
  - cbn [map mapM snd fst]. fold (mapM Ast.literal_eval) (mapM keyword_entry).
    unfold keyword_entry at 1. cbn [snd fst].
    destruct (Ast.literal_eval e) as [v| |]; cbn [bind]; try discriminate.
    destruct (mapM Ast.literal_eval (map snd keywords)) as [vs| |] eqn:E;
      cbn [bind]; try discriminate.
    intros [= <-]. rewrite (IH vs eq_refl). reflexivity.
Qed.

End CallShape.

(** C7: when the text parses as a call whose positional arguments are the
    names [names] and whose keyword values evaluate as literals to [vals],
    [parse_function_call] returns the names, left to right, followed by the
    pairs of each keyword and its value, in the order of the call. *)
Theorem parse_call_shape (s : string) (func : Ast.expr) (args : list Ast.expr)
    (keywords : list (string * Ast.expr)) (names : list string) (vals : list value) :
  Ast.parse s = Ok [Ast.Expr (Ast.Call func args keywords)] ->
  args = map Ast.Name names ->
  mapM Ast.literal_eval (map snd keywords) = Ok vals ->
  parse_function_call s
  = Ok (map Pos names
        ++ map (fun kv => Kw (fst kv) (snd kv)) (combine (map fst keywords) vals))%list.
Proof.
  intros Hp -> Hv. unfold parse_function_call. rewrite Hp. cbn [bind parse_call_node].
  rewrite mapM_arg_id_names. cbn [bind].
  rewrite (mapM_keyword_entry _ _ Hv). reflexivity.
Qed.

(** The example of the specification, by the theorem: the call
    [f(x, y, c={'k': '1'}, a=[1,2])]. *)
Lemma parse_call_example :
  Ast.parse "f(x, y, c={'k': '1'}, a=[1,2])"
  = Ok [Ast.Expr
          (Ast.Call (Ast.Name "f") [Ast.Name "x"; Ast.Name "y"]
             [("c", Ast.Dict [(Ast.Constant (Ast.CStr "k"), Ast.Constant (Ast.CStr "1"))]);
              ("a", Ast.List [Ast.Constant (Ast.CInt 1); Ast.Constant (Ast.CInt 2)])])]
  /\ parse_function_call "f(x, y, c={'k': '1'}, a=[1,2])"
     = Ok [Pos "x"; Pos "y"; Kw "c" (VDict [(VStr "k", VStr "1")]);
           Kw "a" (VList [VInt 1; VInt 2])].
Proof.
  split; [reflexivity|].
  apply (parse_call_shape "f(x, y, c={'k': '1'}, a=[1,2])" (Ast.Name "f")
           [Ast.Name "x"; Ast.Name "y"]
           [("c", Ast.Dict [(Ast.Constant (Ast.CStr "k"), Ast.Constant (Ast.CStr "1"))]);
            ("a", Ast.List [Ast.Constant (Ast.CInt 1); Ast.Constant (Ast.CInt 2)])]
           ["x"; "y"]
           [VDict [(VStr "k", VStr "1")]; VList [VInt 1; VInt 2]]);
    reflexivity.
Defined.

(** ** Statements without a target call *)

Section Frame.

Variable arguments : dict (dict value).
Variable functions : list string.

Lemma rewrite_call_absent (line f : string) :
  Str.find (f ++ "(") line = -1 -> rewrite_call arguments line f = Ok line.
Proof. intros H. unfold rewrite_call. rewrite H. reflexivity. Qed.

Lemma rewrite_line_absent (line : string) :
  no_target functions line -> rewrite_line arguments functions line = Ok line.
Proof.
  unfold no_target. induction functions as [|f fs IH]; intros H; simpl.
  - reflexivity.
  - rewrite rewrite_call_absent by (apply H; now left).
    cbn [bind]. apply IH. intros g Hg. apply H. now right.
Qed.

Lemma lines_loop_outputs (blocks : list string) :
  forall (blackbox_code out : string),
    lines_loop arguments functions blocks blackbox_code = Ok out ->
    exists outs,
      Forall2 (fun b o => rewrite_line arguments functions b = Ok o) blocks outs
      /\ out = blackbox_code ++ Str.cat (map (fun l => l ++ Str.nl) outs).
Proof.
  induction blocks as [|b blocks IH]; intros acc out; simpl.
  - intros [= <-]. exists []. split; [constructor | simpl; now rewrite append_nil_r].
  - destruct (rewrite_line arguments functions b) as [o| |] eqn:Eb;
      cbn [bind]; try discriminate.
    intros H. destruct (IH _ _ H) as [outs [HF ->]].
    exists (o :: outs). split; [now constructor|].
    simpl. now rewrite !append_assoc.
Qed.

End Frame.

(** C5, as stated, does not hold: [rebuild] is no key of the space
    [{build: {lr: 0.01, momentum: 0.9}}], the call [rebuild(lr=0.1)] is the
    whole input, and the output holds [rebuild(lr=0.01, momentum=0.9)]
    instead: the text of the call is not in the output. *)
Lemma inject_rewrites_longer_name :
  ~ In "rebuild" (dict_keys example_space)
  /\ Str.find "rebuild(lr=0.1)" "rebuild(lr=0.1)" = 0
  /\ assign_hyperopt "rebuild(lr=0.1)" example_space
     = Ok ("rebuild(lr=0.01, momentum=0.9)" ++ Str.nl)
  /\ Str.find "rebuild(lr=0.1)" ("rebuild(lr=0.01, momentum=0.9)" ++ Str.nl) = -1.
Proof.
  split; [|repeat split; vm_compute; reflexivity].
  simpl. intros [H | []]. discriminate H.
Qed.

(** A call of a function that is no key loses the spaces inside its brackets
    in the segmenter. *)
Lemma inject_normalises_foreign_call :
  assign_hyperopt "g( x )" example_space = Ok ("g(x)" ++ Str.nl).
Proof. vm_compute. reflexivity. Qed.

Section Untouched.

Lemma mapM_ok {A B : Type} (f : A -> result B) (l : list A) :
  (forall x, In x l -> exists y, f x = Ok y) -> exists ys, mapM f l = Ok ys.
Proof.
  induction l as [|a l IH]; intros H.
  - exists []. reflexivity.
  - destruct (H a (or_introl eq_refl)) as [y Hy].
    destruct IH as [ys Hys]; [intros x Hx; apply H; now right|].
    exists (y :: ys). cbn [mapM]. fold (mapM f). rewrite Hy. cbn [bind].
    rewrite Hys. reflexivity.
Qed.

Lemma dict_get_key {V : Type} (d : dict V) (k : string) :
  In k (dict_keys d) -> exists v, dict_get d k = Ok v.
Proof.
  unfold dict_keys, dict_get. intros H. apply in_map_iff in H.
  destruct H as [[k' v] [<- Hin]]. simpl.
  destruct (dict_find d k') eqn:E; [eauto|].
  exfalso. exact (dict_find_in d k' v Hin E).
Qed.

Lemma lines_loop_untouched (arguments : dict (dict value)) (functions blocks : list string) :
  forall acc,
    Forall (no_target functions) blocks ->
    lines_loop arguments functions blocks acc
    = Ok (acc ++ Str.cat (map (fun l => l ++ Str.nl) blocks)).
Proof.
  induction blocks as [|b blocks IH]; intros acc HF; simpl.
  - now rewrite append_nil_r.
  - inversion HF as [|? ? Hb HF']; subst.
    rewrite (rewrite_line_absent arguments functions b Hb). cbn [bind].
    rewrite IH by assumption. now rewrite !append_assoc.
Qed.

(** When no statement holds a target call, the transform succeeds and returns
    the statements of the segmenter, one per line. *)
Lemma inject_untouched (code : string) (space : dict (dict value)) (blocks : list string) :
  convert_to_single_line_blocks code = Ok blocks ->
  Forall (no_target (dict_keys space)) blocks ->
  assign_hyperopt code space = Ok (Str.cat (map (fun l => l ++ Str.nl) blocks)).
Proof.
  intros Hc HF. unfold assign_hyperopt.
  destruct (mapM_ok (fun function =>
                       d <- dict_get space function ;;
                       d' <- copy_dict d ;;
                       Ok (function, d')) (dict_keys space)) as [arguments Ha].
  - intros f Hf. destruct (dict_get_key space f Hf) as [d Hd]. rewrite Hd. cbn [bind].
    destruct (mapM_ok (fun p => v <- dict_get d p ;; Ok (p, v)) (dict_keys d)) as [d' Hd'].
    + intros p Hp. destruct (dict_get_key d p Hp) as [v Hv]. rewrite Hv. cbn [bind]. eauto.
    + unfold copy_dict. rewrite Hd'. cbn [bind]. eauto.
  - rewrite Ha. cbn [bind]. rewrite Hc. cbn [bind].
    now rewrite lines_loop_untouched.
Qed.

End Untouched.

(** ** Keyword values that are, and are not, literals *)

Section LiteralProof.

Import Ast Literals.

Lemma mapM_evaluates (elts : list expr) :
  Forall evaluates elts ->
  if forallb (literal true) elts
  then exists vs, mapM literal_eval elts = Ok vs
                  /\ forallb hashable vs = forallb hashable_expr elts
  else raises (mapM literal_eval elts).
Proof.
  induction 1 as [|e elts He _ IH].
  - exists []. split; reflexivity.
  - cbn [forallb mapM]. fold (mapM literal_eval). unfold evaluates in He.
    destruct (literal true e).
    + destruct He as [v [-> Hh]]. cbn [bind andb].
      destruct (forallb (literal true) elts).
      * destruct IH as [vs [-> Hhs]]. cbn [bind].
        exists (v :: vs). split; [reflexivity|]. cbn [forallb]. now rewrite Hh, Hhs.
      * destruct IH as [x ->]. raises_with x.
    + destruct He as [x ->]. raises_with x.
Qed.

Lemma evaluates_all (e : expr) : evaluates e.
Proof.
  induction e as [id | c | elts H | elts H | items H | op e _ | obj attr _
                 | e args kws _ _ _] using expr_nested_ind;
    unfold evaluates.
  - raises_with ValueError.
  - exists (value_of_constant c). split; [reflexivity | destruct c; reflexivity].
  - apply mapM_evaluates in H. cbn [literal literal_eval hashable_expr].
    destruct (forallb (literal true) elts).
    + destruct H as [vs [-> Hh]]. cbn [bind]. eexists. split; [reflexivity | exact Hh].
    + destruct H as [x ->]. raises_with x.
  - apply mapM_evaluates in H. cbn [literal literal_eval hashable_expr].
    destruct (forallb (literal true) elts).
    + destruct H as [vs [-> Hh]]. cbn [bind]. eexists. split; reflexivity.
    + destruct H as [x ->]. raises_with x.
  - cbn [literal literal_eval hashable_expr].
    generalize (@nil (value * value)) as acc.
    induction H as [|[k v] items [Hk Hv] _ IH]; intros acc.
    + eexists. split; reflexivity.
    + cbn [forallb fst snd]. unfold evaluates in Hk, Hv. cbn [fst snd] in Hk, Hv.
      destruct (literal true k).
      * destruct Hk as [kv [-> Hkh]]. cbn [bind andb].
        destruct (literal true v).
        -- destruct Hv as [vv [-> _]]. cbn [bind]. rewrite Hkh.
           destruct (hashable_expr k); cbn [andb].
           ++ apply IH.
           ++ raises_with TypeError.
        -- destruct Hv as [x ->]. rewrite andb_false_r. raises_with x.
      * destruct Hk as [x ->]. raises_with x.
  - cbn [literal literal_eval hashable_expr].
    destruct e; try raises_with ValueError.
    destruct c; try raises_with ValueError;
      destruct op; eexists; split; reflexivity.
  - raises_with ValueError.
  - cbn [literal literal_eval andb is_empty_set_call].
    destruct e; try raises_with ValueError.
    destruct args; [|cbn; raises_with ValueError].
    destruct kws; [|cbn; raises_with ValueError].
    cbn [andb is_empty_set_call hashable_expr].
    destruct (String.eqb id "set").
    + eexists. split; reflexivity.
    + raises_with ValueError.
Qed.

Lemma mapM_arg_id_cases (args : list expr) :
  if forallb is_name args then exists names, mapM arg_id args = Ok names
  else mapM arg_id args = Raise AttributeError.
Proof.
  induction args as [|a args IH]; [exists []; reflexivity|].
  cbn [forallb mapM]. fold (mapM arg_id).
  destruct a; cbn [is_name arg_id bind andb]; try reflexivity.
  destruct (forallb is_name args).
  - destruct IH as [names ->]. eexists. reflexivity.
  - rewrite IH. reflexivity.
Qed.

Lemma mapM_keyword_entry_cases (keywords : list (string * expr)) :
  if forallb (fun kw => literal true (snd kw)) keywords
  then exists entries, mapM keyword_entry keywords = Ok entries
  else raises (mapM keyword_entry keywords).
Proof.
  induction keywords as [|[k e] keywords IH]; [exists []; reflexivity|].
  cbn [forallb mapM snd]. fold (mapM keyword_entry).
  change (keyword_entry (k, e)) with (v <- literal_eval e ;; Ok (Kw k v)).
  pose proof (evaluates_all e) as He. unfold evaluates in He.
  destruct (literal true e); cbn [andb].
  - destruct He as [v [-> _]]. cbn [bind].
    destruct (forallb _ keywords).
    + destruct IH as [entries ->]. eexists. reflexivity.
    + destruct IH as [x ->]. raises_with x.
  - destruct He as [x ->]. raises_with x.
Qed.

End LiteralProof.

(** C8, as stated, does not hold: the value of the keyword in [f(a=set())] is
    a call, no literal number, string, list, mapping, tuple, boolean or
    [None], and [parse_function_call] returns the empty set for it. *)
Lemma empty_set_call_accepted :
  Ast.parse "f(a=set())"
  = Ok [Ast.Expr (Ast.Call (Ast.Name "f") []
                    [("a", Ast.Call (Ast.Name "set") [] [])])]
  /\ Literals.literal false (Ast.Call (Ast.Name "set") [] []) = false
  /\ parse_function_call "f(a=set())" = Ok [Kw "a" VEmptySet].
Proof. repeat split; reflexivity. Qed.

(** C8 (amended): for a text that parses as a call, [parse_function_call]
    raises whenever the value of some keyword is not a literal expression,
    where the call [set()] counts as a literal expression besides signed
    numbers, strings, booleans, [None] and the lists, tuples and mappings
    (with hashable keys) built from them; when every keyword value is one, it
    returns a result if the positional arguments are names and raises
    [AttributeError] if not. *)
Theorem parse_call_literal_values (s : string) (func : Ast.expr)
    (args : list Ast.expr) (keywords : list (string * Ast.expr)) :
  Ast.parse s = Ok [Ast.Expr (Ast.Call func args keywords)] ->
  if forallb (fun kw => Literals.literal true (snd kw)) keywords
  then if forallb Literals.is_name args
       then exists entries, parse_function_call s = Ok entries
       else parse_function_call s = Raise AttributeError
  else raises (parse_function_call s).
Proof.
  intros Hp. unfold parse_function_call. rewrite Hp. cbn [bind parse_call_node].
  pose proof (mapM_arg_id_cases args) as Ha.
  pose proof (mapM_keyword_entry_cases keywords) as Hk.
  destruct (forallb _ keywords).
  - destruct (forallb Literals.is_name args).
    + destruct Ha as [names ->]. destruct Hk as [entries ->]. cbn [bind]. eauto.
    + rewrite Ha. reflexivity.
  - destruct (forallb Literals.is_name args).
    + destruct Ha as [names ->]. destruct Hk as [x ->]. raises_with x.
    + rewrite Ha. raises_with AttributeError.
Qed.

(** A keyword whose value is a call of another function: the parse raises. *)
Lemma parse_call_rejects_call_value :
  Ast.parse "f(a=g(1))"
  = Ok [Ast.Expr (Ast.Call (Ast.Name "f") []
                    [("a", Ast.Call (Ast.Name "g") [Ast.Constant (Ast.CInt 1)] [])])]
  /\ raises (parse_function_call "f(a=g(1))").
Proof.
  split; [reflexivity|].
  exact (parse_call_literal_values "f(a=g(1))" (Ast.Name "f") []
           [("a", Ast.Call (Ast.Name "g") [Ast.Constant (Ast.CInt 1)] [])] eq_refl).
Defined.

(** A variable reference and a call as keyword values, evaluated. *)
Lemma parse_call_rejects_examples :
  parse_function_call "f(a=x)" = Raise ValueError
  /\ parse_function_call "f(a=g(1))" = Raise ValueError
  /\ parse_function_call "f(a=x.y)" = Raise ValueError
  /\ parse_function_call "f(1)" = Raise AttributeError.
Proof. repeat split; reflexivity. Qed.

(** Literal keyword values of each kind, evaluated. *)
Lemma parse_call_accepts_examples :
  parse_function_call "f(a=-1, b=0.5, c='s', d=[1, 2], e={'k': 1}, g=(1, 2), h=True, i=None)"
  = Ok [Kw "a" (VInt (-1)); Kw "b" (VFloat false 5 (-1)); Kw "c" (VStr "s");
        Kw "d" (VList [VInt 1; VInt 2]); Kw "e" (VDict [(VStr "k", VInt 1)]);
        Kw "g" (VTuple [VInt 1; VInt 2]); Kw "h" (VBool true); Kw "i" VNone].
Proof. vm_compute. reflexivity. Qed.

(** * Further properties *)

(** ** The normalisation of the segmenter only deletes white space *)

Section Normalisation.

Lemma without_space_app (a b : string) :
  without_space (a ++ b) = without_space a ++ without_space b.
Proof.
  induction a as [|c a IH]; simpl; [reflexivity|].
  destruct (Str.isspace c); simpl; now rewrite IH.
Qed.

Lemma without_space_lstrip (s : string) : without_space (Str.lstrip s) = without_space s.
Proof.
  induction s as [|c s IH]; simpl; [reflexivity|].
  destruct (Str.isspace c) eqn:E; [exact IH|]. simpl. now rewrite E.
Qed.

Lemma without_space_rstrip (s : string) : without_space (Str.rstrip s) = without_space s.
Proof.
  induction s as [|c s IH]; simpl; [reflexivity|].
  destruct (Str.rstrip s) as [|r rs] eqn:Er.
  - simpl in IH. rewrite <- IH.
    destruct (Str.isspace c) eqn:E; simpl; [reflexivity | now rewrite E].
  - change (without_space (String c (String r rs)))
      with (if Str.isspace c then without_space (String r rs)
            else String c (without_space (String r rs))).
    now rewrite IH.
Qed.

Lemma without_space_strip (s : string) : without_space (Str.strip s) = without_space s.
Proof. unfold Str.strip. now rewrite without_space_lstrip, without_space_rstrip. Qed.

Lemma substring_drop (n : nat) (s : string) :
  String.substring 0 n s ++ Str.drop n s = s.
Proof.
  revert s; induction n as [|n IH]; intros s.
  - destruct s; reflexivity.
  - destruct s as [|c s]; simpl; [reflexivity | now rewrite IH].
Qed.

Lemma sub_loop_without_space (fuel : nat) :
  forall (prev : option ascii) (rest : string) (adv : bool) (r : string),
    Re.sub_loop fuel prev rest adv = Some r -> without_space r = without_space rest.
Proof.
  induction fuel as [|fuel IH]; intros prev rest adv r; simpl; [discriminate|].
  destruct (Re.match_here prev rest adv) as [n|].
  - destruct (Re.sub_loop fuel _ (Str.drop n rest) _) as [r'|] eqn:E; [|discriminate].
    intros [= <-]. apply IH in E.
    rewrite without_space_app, without_space_strip, E, <- without_space_app.
    now rewrite substring_drop.
  - destruct rest as [|c rest]; [now intros [= <-]|].
    destruct (Re.sub_loop fuel (Some c) rest false) as [r'|] eqn:E; [|discriminate].
    intros [= <-]. apply IH in E. simpl. now rewrite E.
Qed.

Lemma count_without_space (c : ascii) (s : string) :
  Str.isspace c = false -> Str.count c (without_space s) = Str.count c s.
Proof.
  intros Hc. induction s as [|a s IH]; simpl; [reflexivity|].
  destruct (Str.isspace a) eqn:Ea; simpl; rewrite IH; [|reflexivity].
  destruct (Ascii.eqb_spec a c) as [-> | _]; [congruence | reflexivity].
Qed.

End Normalisation.

Lemma sub_strip_without_space (line : string) :
  without_space (Re.sub_strip line) = without_space line.
Proof. exact (sub_loop_without_space _ _ _ _ _ (sub_strip_defined line)). Qed.

Section OnlySpaceDeleted.

Lemma split_not_nil (sep : ascii) (s : string) : Str.split sep s <> [].
Proof.
  destruct s as [|a s]; simpl; [discriminate|].
  destruct (Ascii.eqb a sep); [discriminate|].
  destruct (Str.split sep s); discriminate.
Qed.

Lemma space_deleted_refl (s : string) : space_deleted s s.
Proof. induction s; constructor; assumption. Qed.

Lemma space_deleted_trans (a b c : string) :
  space_deleted a b -> space_deleted b c -> space_deleted a c.
Proof.
  intros Hab. revert c. induction Hab as [|x s r _ IH|x s r Hx _ IH]; intros c Hbc.
  - exact Hbc.
  - inversion Hbc; subst.
    + apply deleted_keep. now apply IH.
    + apply deleted_drop; [assumption | now apply IH].
  - apply deleted_drop; [assumption | now apply IH].
Qed.

Lemma space_deleted_app (a a' b b' : string) :
  space_deleted a a' -> space_deleted b b' -> space_deleted (a ++ b) (a' ++ b').
Proof.
  intros Ha Hb. induction Ha; simpl; [assumption | now constructor | now constructor].
Qed.

Lemma space_deleted_lstrip (s : string) : space_deleted s (Str.lstrip s).
Proof.
  induction s as [|c s IH]; simpl; [constructor|].
  destruct (Str.isspace c) eqn:E; [now apply deleted_drop | apply space_deleted_refl].
Qed.

Lemma space_deleted_rstrip (s : string) : space_deleted s (Str.rstrip s).
Proof.
  induction s as [|c s IH]; simpl; [constructor|].
  destruct (Str.rstrip s) as [|r rs].
  - destruct (Str.isspace c) eqn:E; [now apply deleted_drop | now apply deleted_keep].
  - now apply deleted_keep.
Qed.

Lemma space_deleted_strip (s : string) : space_deleted s (Str.strip s).
Proof.
  unfold Str.strip. eapply space_deleted_trans;
    [apply space_deleted_rstrip | apply space_deleted_lstrip].
Qed.

Lemma sub_loop_space_deleted (fuel : nat) :
  forall (prev : option ascii) (rest : string) (adv : bool) (r : string),
    Re.sub_loop fuel prev rest adv = Some r -> space_deleted rest r.
Proof.
  induction fuel as [|fuel IH]; intros prev rest adv r; simpl; [discriminate|].
  destruct (Re.match_here prev rest adv) as [n|].
  - destruct (Re.sub_loop fuel _ (Str.drop n rest) _) as [r'|] eqn:E; [|discriminate].
    intros [= <-]. apply IH in E.
    rewrite <- (substring_drop n rest) at 1.
    apply space_deleted_app; [apply space_deleted_strip | exact E].
  - destruct rest as [|c rest]; [intros [= <-]; constructor|].
    destruct (Re.sub_loop fuel (Some c) rest false) as [r'|] eqn:E; [|discriminate].
    intros [= <-]. apply deleted_keep. now apply IH in E.
Qed.

Lemma sub_strip_space_deleted (line : string) : space_deleted line (Re.sub_strip line).
Proof. exact (sub_loop_space_deleted _ _ _ _ _ (sub_strip_defined line)). Qed.

Lemma space_deleted_lines (lines : list string) :
  space_deleted (Str.cat lines) (Str.cat (map Re.sub_strip lines)).
Proof.
  induction lines as [|l lines IH]; simpl; [constructor|].
  apply space_deleted_app; [apply sub_strip_space_deleted | exact IH].
Qed.

Lemma space_deleted_split (code : string) :
  space_deleted code (Str.cat (Str.split Str.newline code)).
Proof.
  induction code as [|a code IH]; [repeat constructor|].
  cbn [Str.split]. destruct (Ascii.eqb_spec a Str.newline) as [-> | Hne].
  - cbn [Str.cat]. apply deleted_drop; [reflexivity | exact IH].
  - pose proof (split_not_nil Str.newline code) as Hnil.
    destruct (Str.split Str.newline code) as [|h t]; [congruence|].
    cbn [Str.cat] in *. apply (deleted_keep a code (h ++ Str.cat t) IH).
Qed.

End OnlySpaceDeleted.

(** X1: the substitution that the segmenter applies to a physical line only
    deletes white-space characters: its result is the line with some of its
    white-space characters taken out, every other character kept in place. *)
Theorem normalisation_deletes_only_space (line : string) :
  space_deleted line (Re.sub_strip line).
Proof. exact (sub_strip_space_deleted line). Qed.

(** ** What the segmenter keeps *)

Section SegmentInvariants.

Import Segments.

Lemma count_app (c : ascii) (a b : string) :
  Str.count c (a ++ b) = Str.count c a + Str.count c b.
Proof. induction a as [|x a IH]; simpl; [reflexivity | rewrite IH; lia]. Qed.

Lemma line_delta_app (a b : string) : line_delta (a ++ b) = line_delta a + line_delta b.
Proof. unfold line_delta. rewrite !count_app. lia. Qed.

Lemma line_delta_sub_strip (line : string) :
  line_delta (Re.sub_strip line) = line_delta line.
Proof.
  unfold line_delta.
  rewrite <- (count_without_space "(" (Re.sub_strip line)) by reflexivity.
  rewrite <- (count_without_space ")" (Re.sub_strip line)) by reflexivity.
  rewrite sub_strip_without_space.
  now rewrite !count_without_space by reflexivity.
Qed.

Lemma group_balanced (lines : list string) :
  forall (pending : list string) (before : Z),
    before = line_delta (statement_text pending) ->
    Forall (fun g => line_delta (statement_text g) = 0)
      (group lines (running_deltas lines before) pending).
Proof.
  induction lines as [|line lines IH]; intros pending before Hb; [constructor|].
  cbn [running_deltas group].
  assert (Hd : before + line_delta line
               = line_delta (statement_text (pending ++ [line])%list)).
  { rewrite statement_text_snoc, line_delta_app, line_delta_sub_strip. lia. }
  destruct (before + line_delta line =? 0) eqn:Hz.
  - constructor.
    + apply Z.eqb_eq in Hz. congruence.
    + apply IH. apply Z.eqb_eq in Hz. rewrite Hz. reflexivity.
  - apply IH. exact Hd.
Qed.

Lemma blocks_loop_line_by_line (lines : list string) :
  forall blocks : list string,
    Forall (fun l => line_delta l = 0) lines ->
    blocks_loop lines blocks EmptyString 0 = Ok (blocks ++ map Re.sub_strip lines)%list.
Proof.
  induction lines as [|line lines IH]; intros blocks HF.
  - simpl. now rewrite app_nil_r.
  - inversion HF as [|? ? Hl HF']; subst. cbn [blocks_loop].
    fold (line_delta line). rewrite Hl. cbn.
    rewrite IH by assumption. now rewrite <- app_assoc.
Qed.

End SegmentInvariants.

(** X2: every logical statement that [convert_to_single_line_blocks] returns
    has as many opening as closing round brackets. *)
Theorem blocks_are_balanced (code : string) (blocks : list string) :
  convert_to_single_line_blocks code = Ok blocks ->
  Forall (fun b => Str.count "(" b = Str.count ")" b) blocks.
Proof.
  rewrite convert_spec. destruct (Segments.malformed _); [discriminate|].
  intros [= <-]. unfold Segments.statements. rewrite Forall_map.
  eapply Forall_impl; [|apply group_balanced; reflexivity].
  intros g Hg. unfold Segments.line_delta in Hg. lia.
Qed.

Lemma blocks_are_balanced_example :
  convert_to_single_line_blocks ("y = f(" ++ Str.nl ++ "  g(a) , b" ++ Str.nl ++ ")")
  = Ok ["y = f(  g(a), b)"]
  /\ Forall (fun b => Str.count "(" b = Str.count ")" b) ["y = f(  g(a), b)"].
Proof.
  split; [vm_compute; reflexivity|].
  apply (blocks_are_balanced ("y = f(" ++ Str.nl ++ "  g(a) , b" ++ Str.nl ++ ")")).
  vm_compute. reflexivity.
Defined.

(** X3: the statements that [convert_to_single_line_blocks] returns, one
    after the other, are the input with some of its white-space characters
    (line breaks included) deleted: apart from white space, segmenting drops,
    adds and moves no character. *)
Theorem segment_preserves_text (code : string) (blocks : list string) :
  convert_to_single_line_blocks code = Ok blocks ->
  space_deleted code (Str.cat blocks).
Proof.
  intros H. rewrite (convert_cover code blocks H).
  eapply space_deleted_trans; [apply space_deleted_split | apply space_deleted_lines].
Qed.

Lemma segment_preserves_text_example :
  convert_to_single_line_blocks ("y = f(" ++ Str.nl ++ "  a , b" ++ Str.nl ++ ")")
  = Ok ["y = f(  a, b)"]
  /\ space_deleted ("y = f(" ++ Str.nl ++ "  a , b" ++ Str.nl ++ ")")
       (Str.cat ["y = f(  a, b)"]).
Proof.
  split; [vm_compute; reflexivity|].
  apply (segment_preserves_text ("y = f(" ++ Str.nl ++ "  a , b" ++ Str.nl ++ ")")).
  vm_compute. reflexivity.
Defined.

(** X4: when every physical line has as many opening as closing round
    brackets, [convert_to_single_line_blocks] returns one statement per
    physical line, each the normalised line. *)
Theorem balanced_lines_stay_apart (code : string) :
  Forall (fun l => Segments.line_delta l = 0) (Str.split Str.newline code) ->
  convert_to_single_line_blocks code
  = Ok (map Re.sub_strip (Str.split Str.newline code)).
Proof.
  intros H. unfold convert_to_single_line_blocks.
  now rewrite blocks_loop_line_by_line.
Qed.

Lemma balanced_lines_stay_apart_example :
  Forall (fun l => Segments.line_delta l = 0)
    (Str.split Str.newline ("a = f( 1 )" ++ Str.nl ++ "b = 2"))
  /\ convert_to_single_line_blocks ("a = f( 1 )" ++ Str.nl ++ "b = 2")
     = Ok (map Re.sub_strip (Str.split Str.newline ("a = f( 1 )" ++ Str.nl ++ "b = 2"))).
Proof.
  assert (H : Forall (fun l => Segments.line_delta l = 0)
                (Str.split Str.newline ("a = f( 1 )" ++ Str.nl ++ "b = 2"))).
  { vm_compute. repeat constructor. }
  split; [exact H|].
  exact (balanced_lines_stay_apart ("a = f( 1 )" ++ Str.nl ++ "b = 2") H).
Defined.

(** ** The index that [find_matching_parenthesis] returns *)

Section MatchingIndex.

Lemma get_lt (k : nat) (s : string) (ch : ascii) :
  String.get k s = Some ch -> (k < String.length s)%nat.
Proof.
  revert k; induction s as [|a s IH]; intros k; simpl; [discriminate|].
  destruct k as [|k]; [lia|]. intros H. apply IH in H. lia.
Qed.

Lemma index_of_get (s : string) (k : nat) (ch : ascii) :
  String.get k s = Some ch -> Str.index s (Z.of_nat k) = Ok (Str.char ch).
Proof.
  intros H. pose proof (get_lt _ _ _ H) as Hk. unfold Str.index, Str.len.
  destruct (Z.of_nat k <? 0) eqn:E0; [lia|]. rewrite E0. simpl orb.
  destruct (Z.of_nat (String.length s) <=? Z.of_nat k) eqn:E1; [lia|].
  now rewrite Nat2Z.id, H.
Qed.

Lemma get_of_index (s : string) (i : Z) (ch : ascii) :
  0 <= i -> Str.index s i = Ok (Str.char ch) ->
  String.get (Z.to_nat i) s = Some ch.
Proof.
  intros Hi. unfold Str.index.
  destruct (i <? 0) eqn:E0; [lia|]. rewrite E0. simpl orb.
  destruct (Str.len s <=? i); [discriminate|].
  destruct (String.get (Z.to_nat i) s); [|discriminate].
  now intros [= ->].
Qed.

Lemma drop_get (k : nat) (s : string) (ch : ascii) (rest : string) :
  Str.drop k s = String ch rest ->
  String.get k s = Some ch /\ Str.drop (S k) s = rest.
Proof.
  revert s; induction k as [|k IH]; intros s; simpl.
  - intros ->. split; reflexivity.
  - destruct s as [|a s]; [discriminate|]. intros H. apply IH in H. exact H.
Qed.

Lemma get_drop (k : nat) (s : string) (ch : ascii) :
  String.get k s = Some ch -> exists rest, Str.drop k s = String ch rest.
Proof.
  revert s; induction k as [|k IH]; intros s; destruct s as [|a s]; simpl;
    try discriminate.
  - intros [= ->]. eauto.
  - apply IH.
Qed.

Lemma range_nil (lo hi : Z) : hi <= lo -> range lo hi = [].
Proof.
  intros H. unfold range. replace (Z.to_nat (hi - lo)) with O by lia. reflexivity.
Qed.

Lemma range_cons (lo hi : Z) : lo < hi -> range lo hi = lo :: range (lo + 1) hi.
Proof.
  intros H. unfold range.
  replace (Z.to_nat (hi - lo)) with (S (Z.to_nat (hi - (lo + 1)))) by lia.
  cbn [seq map]. f_equal; [lia|].
  rewrite <- seq_shift, map_map. apply map_ext. intros k. lia.
Qed.

Variables (line : string) (o c : ascii).

(** The loop over the indices is the scan of the text after them. *)
Lemma scan_as_offset (rest : string) :
  forall (k : nat) (n_open : Z),
    Str.drop k line = rest ->
    (k + String.length rest = String.length line)%nat ->
    scan_parenthesis line (Str.char o) (Str.char c)
      (range (Z.of_nat k) (Str.len line)) n_open
    = match close_offset o c rest n_open with
      | Some d => Ok (Z.of_nat (k + d))
      | None => Raise IndexError
      end.
Proof.
  induction rest as [|ch rest IH]; intros k n_open Hd Hl.
  - simpl in Hl. rewrite range_nil by (unfold Str.len; lia). reflexivity.
  - simpl in Hl. rewrite range_cons by (unfold Str.len; lia).
    destruct (drop_get _ _ _ _ Hd) as [Hg Hd'].
    cbn [scan_parenthesis close_offset]. rewrite (index_of_get _ _ _ Hg). cbn [bind].
    replace (Z.of_nat k + 1) with (Z.of_nat (S k)) by lia.
    change (String.eqb (Str.char ch) (Str.char o)) with
      (if Ascii.eqb ch o then true else false).
    change (String.eqb (Str.char ch) (Str.char c)) with
      (if Ascii.eqb ch c then true else false).
    assert (Hshift : forall n,
               match option_map S (close_offset o c rest n) with
               | Some d => Ok (Z.of_nat (k + d))
               | None => Raise IndexError
               end
               = match close_offset o c rest n with
                 | Some d => Ok (Z.of_nat (S k + d))
                 | None => @Raise Z IndexError
                 end).
    { intros n. destruct (close_offset o c rest n); simpl; [f_equal; f_equal; lia | reflexivity]. }
    destruct (Ascii.eqb ch o).
    + rewrite Hshift. apply IH; [exact Hd' | lia].
    + destruct (Ascii.eqb ch c).
      * destruct (n_open - 1 =? 0).
        -- f_equal. lia.
        -- rewrite Hshift. apply IH; [exact Hd' | lia].
      * rewrite Hshift. apply IH; [exact Hd' | lia].
Qed.

Hypothesis distinct : o <> c.

Let depth (n_open : Z) (s : string) : Z := n_open + Str.count o s - Str.count c s.

Lemma close_offset_sound (rest : string) :
  forall (n_open : Z) (d : nat),
    0 < n_open ->
    close_offset o c rest n_open = Some d ->
    String.get d rest = Some c
    /\ depth n_open (String.substring 0 d rest) = 1
    /\ forall j, (j < d)%nat -> 0 < depth n_open (String.substring 0 (S j) rest).
Proof.
  unfold depth.
  induction rest as [|ch rest IH]; intros n_open d Hn; cbn [close_offset]; [discriminate|].
  destruct (Ascii.eqb_spec ch o) as [-> | Hno].
  - destruct (close_offset o c rest (n_open + 1)) as [d'|] eqn:E; [|discriminate].
    intros [= <-]. destruct (IH (n_open + 1) d' ltac:(lia) E) as [Hg [Hb Hp]].
    assert (Hoc : Ascii.eqb o c = false) by (now apply Ascii.eqb_neq).
    split; [exact Hg|]. split.
    + cbn [String.substring Str.count]. rewrite Ascii.eqb_refl, Hoc. lia.
    + intros [|j] Hj; cbn [String.substring Str.count]; rewrite Ascii.eqb_refl, Hoc.
      * destruct rest; cbn [String.substring Str.count]; lia.
      * specialize (Hp j ltac:(lia)). lia.
  - assert (Hcho : Ascii.eqb ch o = false) by (now apply Ascii.eqb_neq).
    destruct (Ascii.eqb_spec ch c) as [-> | Hnc].
    + destruct (n_open - 1 =? 0) eqn:Hz.
      * intros [= <-]. split; [reflexivity|]. split.
        -- cbn [String.substring Str.count]. lia.
        -- intros j Hj. lia.
      * destruct (close_offset o c rest (n_open - 1)) as [d'|] eqn:E; [|discriminate].
        intros [= <-]. destruct (IH (n_open - 1) d' ltac:(lia) E) as [Hg [Hb Hp]].
        split; [exact Hg|]. split.
        -- cbn [String.substring Str.count]. rewrite Hcho, Ascii.eqb_refl. lia.
        -- intros [|j] Hj; cbn [String.substring Str.count];
             rewrite Hcho, Ascii.eqb_refl.
           ++ destruct rest; cbn [String.substring Str.count]; lia.
           ++ specialize (Hp j ltac:(lia)). lia.
    + assert (Hchc : Ascii.eqb ch c = false) by (now apply Ascii.eqb_neq).
      destruct (close_offset o c rest n_open) as [d'|] eqn:E; [|discriminate].
      intros [= <-]. destruct (IH _ _ Hn E) as [Hg [Hb Hp]].
      split; [exact Hg|]. split.
      * cbn [String.substring Str.count]. rewrite Hcho, Hchc. lia.
      * intros [|j] Hj; cbn [String.substring Str.count]; rewrite Hcho, Hchc.
        -- destruct rest; cbn [String.substring Str.count]; lia.
        -- specialize (Hp j ltac:(lia)). lia.
Qed.

Lemma close_offset_none (rest : string) :
  forall n_open : Z,
    0 < n_open ->
    close_offset o c rest n_open = None ->
    forall j, (j < String.length rest)%nat ->
      0 < depth n_open (String.substring 0 (S j) rest).
Proof.
  unfold depth.
  induction rest as [|ch rest IH]; intros n_open Hn; cbn [close_offset];
    [intros _ j Hj; simpl in Hj; lia|].
  assert (Hsub0 : forall s, String.substring 0 0 s = EmptyString) by (now destruct s).
  destruct (Ascii.eqb_spec ch o) as [-> | Hno].
  - assert (Hoc : Ascii.eqb o c = false) by (now apply Ascii.eqb_neq).
    destruct (close_offset o c rest (n_open + 1)) eqn:E; [discriminate|].
    intros _ [|j] Hj; cbn [String.substring Str.count]; rewrite Ascii.eqb_refl, Hoc.
    + rewrite Hsub0. cbn [Str.count]. lia.
    + simpl in Hj. specialize (IH (n_open + 1) ltac:(lia) E j ltac:(lia)). lia.
  - assert (Hcho : Ascii.eqb ch o = false) by (now apply Ascii.eqb_neq).
    destruct (Ascii.eqb_spec ch c) as [-> | Hnc].
    + destruct (n_open - 1 =? 0) eqn:Hz; [discriminate|].
      destruct (close_offset o c rest (n_open - 1)) eqn:E; [discriminate|].
      intros _ [|j] Hj; cbn [String.substring Str.count]; rewrite Hcho, Ascii.eqb_refl.
      * rewrite Hsub0. cbn [Str.count]. lia.
      * simpl in Hj. specialize (IH (n_open - 1) ltac:(lia) E j ltac:(lia)). lia.
    + assert (Hchc : Ascii.eqb ch c = false) by (now apply Ascii.eqb_neq).
      destruct (close_offset o c rest n_open) eqn:E; [discriminate|].
      intros _ [|j] Hj; cbn [String.substring Str.count]; rewrite Hcho, Hchc.
      * rewrite Hsub0. cbn [Str.count]. lia.
      * simpl in Hj. specialize (IH n_open Hn E j ltac:(lia)). lia.
Qed.

End MatchingIndex.

Section MatchingSpan.

Lemma substring_none (a : nat) (s : string) : String.substring a 0 s = EmptyString.
Proof.
  revert s; induction a as [|a IH]; intros s; destruct s; simpl; auto.
Qed.

Lemma substring_shift (a m : nat) (s : string) :
  String.substring a m s = String.substring 0 m (Str.drop a s).
Proof.
  revert s; induction a as [|a IH]; intros s; [reflexivity|].
  destruct s as [|x s]; simpl; [destruct m; reflexivity | apply IH].
Qed.

Lemma substring_succ (d : nat) (s : string) (x : ascii) :
  String.get d s = Some x ->
  String.substring 0 (S d) s = String.substring 0 d s ++ Str.char x.
Proof.
  revert s; induction d as [|d IH]; intros s; destruct s as [|a s]; simpl;
    try discriminate.
  - intros [= ->]. now rewrite substring_none.
  - intros H. now rewrite <- IH.
Qed.

Lemma get_drop_add (k d : nat) (s : string) :
  String.get (k + d) s = String.get d (Str.drop k s).
Proof.
  revert s; induction k as [|k IH]; intros s; [reflexivity|].
  destruct s as [|a s]; simpl; [destruct d; reflexivity | apply IH].
Qed.

Lemma slice_nat (s : string) (a m : nat) :
  (a + m <= String.length s)%nat ->
  Str.slice s (Some (Z.of_nat a)) (Some (Z.of_nat (a + m))) = String.substring a m s.
Proof.
  intros H. unfold Str.slice, Str.clamp, Str.len.
  destruct (Z.of_nat a <? 0) eqn:E1; [order_bools; lia|].
  destruct (Z.of_nat (a + m) <? 0) eqn:E2; [order_bools; lia|].
  rewrite E1, E2.
  destruct (Z.of_nat (String.length s) <? Z.of_nat a) eqn:E3; [order_bools; lia|].
  destruct (Z.of_nat (String.length s) <? Z.of_nat (a + m)) eqn:E4; [order_bools; lia|].
  destruct (Z.of_nat (a + m) <=? Z.of_nat a) eqn:E5; order_bools.
  - assert (m = 0)%nat by lia. subst m. now rewrite substring_none.
  - rewrite Nat2Z.id. f_equal. lia.
Qed.

Variables (line : string) (o c : ascii).
Hypothesis distinct : o <> c.

(** The text from an opening delimiter at index [k] over [m] more
    characters. *)
Lemma slice_from_open (k m : nat) :
  String.get k line = Some o ->
  (S k + m <= String.length line)%nat ->
  Str.slice line (Some (Z.of_nat k)) (Some (Z.of_nat k + 1 + Z.of_nat m))
  = String o (String.substring 0 m (Str.drop (S k) line)).
Proof.
  intros Hg Hl.
  replace (Z.of_nat k + 1 + Z.of_nat m) with (Z.of_nat (k + S m)) by lia.
  rewrite slice_nat by lia. rewrite substring_shift.
  destruct (get_drop _ _ _ Hg) as [rest Hd]. rewrite Hd.
  destruct (drop_get _ _ _ _ Hd) as [_ ->]. reflexivity.
Qed.

Lemma find_matching_as_offset (start_ind : Z) :
  0 <= start_ind ->
  Str.index line start_ind = Ok (Str.char o) ->
  default_matching (Str.char o) = Ok (Str.char c) ->
  find_matching_parenthesis line start_ind (Str.char o) None
  = match close_offset o c (Str.drop (S (Z.to_nat start_ind)) line) 1 with
    | Some d => Ok (start_ind + 1 + Z.of_nat d)
    | None => Raise IndexError
    end.
Proof.
  intros Hs Hi Hm. unfold find_matching_parenthesis.
  rewrite Hi. cbn [bind]. rewrite String.eqb_refl. cbn [negb].
  rewrite Hm. cbn [bind].
  pose proof (get_lt _ _ _ (get_of_index _ _ _ Hs Hi)) as Hk.
  replace (start_ind + 1) with (Z.of_nat (S (Z.to_nat start_ind))) by lia.
  rewrite (scan_as_offset line o c (Str.drop (S (Z.to_nat start_ind)) line)
             (S (Z.to_nat start_ind)) 1 eq_refl)
    by (rewrite length_drop; lia).
  destruct (close_offset _ _ _ _); [f_equal; lia | reflexivity].
Qed.

Lemma opening_of_result (start_ind : Z) (r : Z) :
  find_matching_parenthesis line start_ind (Str.char o) None = Ok r ->
  Str.index line start_ind = Ok (Str.char o).
Proof.
  unfold find_matching_parenthesis.
  destruct (Str.index line start_ind) as [x| |]; cbn [bind]; try discriminate.
  destruct (String.eqb_spec x (Str.char o)) as [-> | _]; [reflexivity | discriminate].
Qed.

End MatchingSpan.

Lemma find_matching_sound (line : string) (start_ind i : Z) (o c : ascii) :
  0 <= start_ind ->
  o <> c ->
  default_matching (Str.char o) = Ok (Str.char c) ->
  find_matching_parenthesis line start_ind (Str.char o) None = Ok i ->
  start_ind < i < Str.len line
  /\ Str.index line i = Ok (Str.char c)
  /\ Str.count o (Str.slice line (Some start_ind) (Some (i + 1)))
     = Str.count c (Str.slice line (Some start_ind) (Some (i + 1)))
  /\ forall j, start_ind <= j < i ->
       Str.count c (Str.slice line (Some start_ind) (Some (j + 1)))
       < Str.count o (Str.slice line (Some start_ind) (Some (j + 1))).
Proof.
  intros Hs Hoc Hm H.
  pose proof (opening_of_result _ _ _ _ H) as Hi.
  rewrite (find_matching_as_offset line o c start_ind Hs Hi Hm) in H.
  pose proof (get_of_index _ _ _ Hs Hi) as Hg.
  pose proof (get_lt _ _ _ Hg) as Hk.
  set (k := Z.to_nat start_ind) in *.
  assert (Hstart : start_ind = Z.of_nat k) by lia.
  destruct (close_offset o c (Str.drop (S k) line) 1) as [d|] eqn:E; [|discriminate].
  injection H as <-.
  destruct (close_offset_sound o c Hoc _ 1 d Z.lt_0_1 E) as [Hgd [Hb Hp]].
  pose proof (get_lt _ _ _ Hgd) as Hd. rewrite length_drop in Hd.
  assert (Heq_oc : Ascii.eqb o c = false) by (now apply Ascii.eqb_neq).
  assert (Heq_co : Ascii.eqb c o = false) by (apply Ascii.eqb_neq; congruence).
  split; [unfold Str.len; lia|]. split; [|split].
  - replace (start_ind + 1 + Z.of_nat d) with (Z.of_nat (S k + d)) by lia.
    apply index_of_get. now rewrite get_drop_add.
  - rewrite Hstart.
    replace (Z.of_nat k + 1 + Z.of_nat d + 1) with (Z.of_nat k + 1 + Z.of_nat (S d)) by lia.
    rewrite (slice_from_open line o k (S d) Hg) by lia.
    rewrite (substring_succ _ _ _ Hgd). cbn [Str.count].
    rewrite !count_app. cbn [Str.char Str.count].
    rewrite !Ascii.eqb_refl, Heq_oc, Heq_co. lia.
  - intros j Hj. rewrite Hstart.
    replace (j + 1) with (Z.of_nat k + 1 + Z.of_nat (Z.to_nat (j - start_ind))) by lia.
    rewrite (slice_from_open line o k _ Hg) by lia.
    cbn [Str.count]. rewrite Ascii.eqb_refl, Heq_oc.
    destruct (Z.to_nat (j - start_ind)) as [|j'] eqn:Ej.
    + rewrite substring_none. cbn [Str.count]. lia.
    + specialize (Hp j' ltac:(lia)). lia.
Qed.

(** X5: for an opening delimiter at a start index that is not negative and a
    closing delimiter that differs from it, the index that
    [find_matching_parenthesis] returns lies after the start index, holds the
    closing delimiter, and is the first index up to which the text from the
    start index has as many closing as opening delimiters. *)
Theorem matching_index_closes (line : string) (start_ind i : Z) (o c : ascii) :
  0 <= start_ind ->
  o <> c ->
  default_matching (Str.char o) = Ok (Str.char c) ->
  find_matching_parenthesis line start_ind (Str.char o) None = Ok i ->
  start_ind < i < Str.len line
  /\ Str.index line i = Ok (Str.char c)
  /\ Str.count o (Str.slice line (Some start_ind) (Some (i + 1)))
     = Str.count c (Str.slice line (Some start_ind) (Some (i + 1)))
  /\ forall j, start_ind <= j < i ->
       Str.count c (Str.slice line (Some start_ind) (Some (j + 1)))
       < Str.count o (Str.slice line (Some start_ind) (Some (j + 1))).
Proof. exact (find_matching_sound line start_ind i o c). Qed.

Lemma matching_index_closes_example :
  (0 <= 1 /\ "("%char <> ")"%char
   /\ default_matching "(" = Ok ")"
   /\ find_matching_parenthesis "f(g(a),b) + h(c)" 1 "(" None = Ok 8)
  /\ 1 < 8 < Str.len "f(g(a),b) + h(c)"
  /\ Str.index "f(g(a),b) + h(c)" 8 = Ok ")"
  /\ Str.count "(" (Str.slice "f(g(a),b) + h(c)" (Some 1) (Some (8 + 1)))
     = Str.count ")" (Str.slice "f(g(a),b) + h(c)" (Some 1) (Some (8 + 1)))
  /\ forall j, 1 <= j < 8 ->
       Str.count ")" (Str.slice "f(g(a),b) + h(c)" (Some 1) (Some (j + 1)))
       < Str.count "(" (Str.slice "f(g(a),b) + h(c)" (Some 1) (Some (j + 1))).
Proof.
  assert (H0 : 0 <= 1) by lia.
  assert (H1 : "("%char <> ")"%char) by discriminate.
  split; [repeat split; try reflexivity; assumption|].
  exact (matching_index_closes "f(g(a),b) + h(c)" 1 8 "(" ")" H0 H1 eq_refl eq_refl).
Defined.

(** X6: for an opening delimiter at a start index that is not negative and a
    closing delimiter that differs from it, [find_matching_parenthesis]
    raises [IndexError] exactly when the text from the start index never gets
    as many closing as opening delimiters, up to the end of the line. *)
Theorem unmatched_raises_index_error (line : string) (start_ind : Z) (o c : ascii) :
  0 <= start_ind ->
  o <> c ->
  default_matching (Str.char o) = Ok (Str.char c) ->
  Str.index line start_ind = Ok (Str.char o) ->
  find_matching_parenthesis line start_ind (Str.char o) None = Raise IndexError
  <-> (forall j, start_ind <= j < Str.len line ->
         Str.count c (Str.slice line (Some start_ind) (Some (j + 1)))
         < Str.count o (Str.slice line (Some start_ind) (Some (j + 1)))).
Proof.
  intros Hs Hoc Hm Hi.
  pose proof (find_matching_as_offset line o c start_ind Hs Hi Hm) as Hf.
  pose proof (get_of_index _ _ _ Hs Hi) as Hg.
  pose proof (get_lt _ _ _ Hg) as Hk.
  set (k := Z.to_nat start_ind) in *.
  assert (Hstart : start_ind = Z.of_nat k) by lia.
  destruct (close_offset o c (Str.drop (S k) line) 1) as [d|] eqn:E.
  - destruct (find_matching_sound line start_ind _ o c Hs Hoc Hm Hf) as [Hr [_ [Hb _]]].
    rewrite Hf. split; [discriminate|].
    intros Hall. specialize (Hall (start_ind + 1 + Z.of_nat d) ltac:(lia)). lia.
  - rewrite Hf. split; [|reflexivity]. intros _ j Hj.
    assert (Heq_oc : Ascii.eqb o c = false) by (now apply Ascii.eqb_neq).
    pose proof (close_offset_none o c Hoc _ 1 Z.lt_0_1 E) as Hp.
    rewrite length_drop in Hp. unfold Str.len in Hj. rewrite Hstart.
    replace (j + 1) with (Z.of_nat k + 1 + Z.of_nat (Z.to_nat (j - start_ind))) by lia.
    rewrite (slice_from_open line o k _ Hg) by lia.
    cbn [Str.count]. rewrite Ascii.eqb_refl, Heq_oc.
    destruct (Z.to_nat (j - start_ind)) as [|j'] eqn:Ej.
    + rewrite substring_none. cbn [Str.count]. lia.
    + specialize (Hp j' ltac:(lia)). lia.
Qed.

Lemma unmatched_raises_index_error_example :
  (0 <= 1 /\ "("%char <> ")"%char
   /\ default_matching "(" = Ok ")"
   /\ Str.index "f(g(a),b" 1 = Ok "(")
  /\ (find_matching_parenthesis "f(g(a),b" 1 "(" None = Raise IndexError
      <-> (forall j, 1 <= j < Str.len "f(g(a),b" ->
             Str.count ")" (Str.slice "f(g(a),b" (Some 1) (Some (j + 1)))
             < Str.count "(" (Str.slice "f(g(a),b" (Some 1) (Some (j + 1))))).
Proof.
  assert (H0 : 0 <= 1) by lia.
  assert (H1 : "("%char <> ")"%char) by discriminate.
  split; [repeat split; try reflexivity; assumption|].
  exact (unmatched_raises_index_error "f(g(a),b" 1 "(" ")" H0 H1 eq_refl eq_refl).
Defined.

(** ** Delimiter types without a pair *)

Lemma matching_table_value :
  matching_table
  = Ok [("(", ")"); ("{", "}"); ("[", "]"); ("'", "'");
        (Str.char Str.dquote, Str.char Str.dquote)].
Proof. reflexivity. Qed.

Lemma default_matching_unsupported (q : string) :
  ~ In q supported_delimiters -> default_matching q = Raise KeyError.
Proof.
  intros Hq. unfold default_matching. rewrite matching_table_value. cbn [bind].
  unfold dict_get. cbn [dict_find].
  repeat match goal with
         | |- context [String.eqb ?k q] =>
             destruct (String.eqb_spec k q) as [<- | _];
             [exfalso; apply Hq; unfold supported_delimiters; simpl; tauto|]
         end.
  reflexivity.
Qed.

(** X7: when the character at the start index is the delimiter type that
    the caller names but the type is none of the five of
    [parenthesis_pairs] and no closing delimiter is given,
    [find_matching_parenthesis] raises [KeyError]. *)
Theorem unsupported_delimiter_key_error (line : string) (start_ind : Z) (q : string) :
  Str.index line start_ind = Ok q ->
  ~ In q supported_delimiters ->
  find_matching_parenthesis line start_ind q None = Raise KeyError.
Proof.
  intros Hi Hq. unfold find_matching_parenthesis.
  rewrite Hi. cbn [bind]. rewrite String.eqb_refl. cbn [negb].
  now rewrite default_matching_unsupported.
Qed.

Lemma unsupported_delimiter_key_error_example :
  (Str.index "v<a>" 1 = Ok "<" /\ ~ In "<" supported_delimiters)
  /\ find_matching_parenthesis "v<a>" 1 "<" None = Raise KeyError.
Proof.
  assert (H : ~ In "<" supported_delimiters).
  { unfold supported_delimiters. simpl. intros [H | [H | [H | [H | [H | []]]]]]; discriminate H. }
  split; [split; [reflexivity | exact H]|].
  exact (unsupported_delimiter_key_error "v<a>" 1 "<" eq_refl H).
Defined.

(** ** When [parse_function_call] returns and when it does not *)

Section ParseCallOutcomes.

Import Ast Literals.

Lemma mapM_arg_id_inv (args : list expr) :
  forall names, mapM arg_id args = Ok names -> args = map Name names.
Proof.
  induction args as [|a args IH]; intros names.
  - intros [= <-]. reflexivity.
  - cbn [mapM]. fold (mapM arg_id).
    destruct a; cbn [arg_id bind]; try discriminate.
    destruct (mapM arg_id args) as [ns| |]; cbn [bind]; try discriminate.
    intros [= <-]. now rewrite (IH ns eq_refl).
Qed.

Lemma mapM_keyword_entry_inv (keywords : list (string * expr)) :
  forall entries,
    mapM keyword_entry keywords = Ok entries ->
    exists vals,
      mapM literal_eval (map snd keywords) = Ok vals
      /\ entries = map (fun kv => Kw (fst kv) (snd kv)) (combine (map fst keywords) vals).
Proof.
  induction keywords as [|[k e] keywords IH]; intros entries.
  - intros [= <-]. exists []. split; reflexivity.
  - cbn [mapM map snd fst]. fold (mapM keyword_entry) (mapM literal_eval).
    change (keyword_entry (k, e)) with (v <- literal_eval e ;; Ok (Kw k v)).
    destruct (literal_eval e) as [v| |]; cbn [bind]; try discriminate.
    destruct (mapM keyword_entry keywords) as [es| |]; cbn [bind]; try discriminate.
    intros [= <-]. destruct (IH es eq_refl) as [vals [-> ->]]. cbn [bind].
    exists (v :: vals). split; reflexivity.
Qed.

End ParseCallOutcomes.

(** X8: when the first statement of the text is an expression statement
    that is a call with a positional argument that is not a plain name (a
    constant, a display, a nested call, ...), [parse_function_call] raises
    [AttributeError], whatever the keyword arguments are: the positional
    arguments are read before any keyword value is evaluated. *)
Theorem parse_call_attribute_error (s : string) (func : Ast.expr)
    (args : list Ast.expr) (keywords : list (string * Ast.expr)) (rest : list Ast.stmt) :
  Ast.parse s = Ok (Ast.Expr (Ast.Call func args keywords) :: rest) ->
  forallb Literals.is_name args = false ->
  parse_function_call s = Raise AttributeError.
Proof.
  intros Hp He. unfold parse_function_call. rewrite Hp. cbn [bind parse_call_node].
  pose proof (mapM_arg_id_cases args) as Ha. rewrite He in Ha.
  now rewrite Ha.
Qed.

Lemma parse_call_attribute_error_example :
  (Ast.parse "f(1, a=x)"
   = Ok [Ast.Expr (Ast.Call (Ast.Name "f") [Ast.Constant (Ast.CInt 1)]
                     [("a", Ast.Name "x")])]
   /\ forallb Literals.is_name [Ast.Constant (Ast.CInt 1)] = false)
  /\ parse_function_call "f(1, a=x)" = Raise AttributeError.
Proof.
  split; [split; reflexivity|].
  exact (parse_call_attribute_error "f(1, a=x)" (Ast.Name "f")
           [Ast.Constant (Ast.CInt 1)] [("a", Ast.Name "x")] [] eq_refl eq_refl).
Defined.

(** X9: when the first statement of the text is an expression statement
    and [parse_function_call] returns a list, the expression is a call whose
    positional arguments are all plain names and whose keyword values all
    evaluate as literals, and the list has one entry per argument: the names
    first, then the keywords with their values, each in the order of the
    call. *)
Theorem parse_call_success_shape (s : string) (node : Ast.expr) (rest : list Ast.stmt)
    (entries : list arg) :
  Ast.parse s = Ok (Ast.Expr node :: rest) ->
  parse_function_call s = Ok entries ->
  exists func names keywords vals,
    node = Ast.Call func (map Ast.Name names) keywords
    /\ mapM Ast.literal_eval (map snd keywords) = Ok vals
    /\ List.length vals = List.length keywords
    /\ entries
       = (map Pos names
          ++ map (fun kv => Kw (fst kv) (snd kv)) (combine (map fst keywords) vals))%list.
Proof.
  intros Hp. unfold parse_function_call. rewrite Hp. cbn [bind].
  destruct node as [| | | | | | |func args kws]; cbn [parse_call_node]; try discriminate.
  destruct (mapM arg_id args) as [names| |] eqn:Ha; cbn [bind]; try discriminate.
  destruct (mapM keyword_entry kws) as [es| |] eqn:Hk; cbn [bind]; try discriminate.
  intros [= <-].
  apply mapM_arg_id_inv in Ha. apply mapM_keyword_entry_inv in Hk.
  destruct Hk as [vals [Hv ->]]. subst args.
  exists func, names, kws, vals. repeat split; try assumption.
  clear - Hv. revert vals Hv. induction kws as [|kw kws IH]; intros vals.
  - intros [= <-]. reflexivity.
  - cbn [map mapM]. fold (mapM Ast.literal_eval).
    destruct (Ast.literal_eval (snd kw)); cbn [bind]; try discriminate.
    destruct (mapM Ast.literal_eval (map snd kws)) as [vs| |] eqn:E;
      cbn [bind]; try discriminate.
    intros [= <-]. simpl. f_equal. now apply IH.
Qed.

Lemma parse_call_success_shape_example :
  (Ast.parse "f(x, lr=0.5, k=[1])"
   = Ok [Ast.Expr (Ast.Call (Ast.Name "f") [Ast.Name "x"]
                     [("lr", Ast.Constant (Ast.CFloat 5 (-1)));
                      ("k", Ast.List [Ast.Constant (Ast.CInt 1)])])]
   /\ parse_function_call "f(x, lr=0.5, k=[1])"
      = Ok [Pos "x"; Kw "lr" (VFloat false 5 (-1)); Kw "k" (VList [VInt 1])])
  /\ exists func names keywords vals,
       Ast.Call (Ast.Name "f") [Ast.Name "x"]
         [("lr", Ast.Constant (Ast.CFloat 5 (-1)));
          ("k", Ast.List [Ast.Constant (Ast.CInt 1)])]
       = Ast.Call func (map Ast.Name names) keywords
       /\ mapM Ast.literal_eval (map snd keywords) = Ok vals
       /\ List.length vals = List.length keywords
       /\ [Pos "x"; Kw "lr" (VFloat false 5 (-1)); Kw "k" (VList [VInt 1])]
          = (map Pos names
             ++ map (fun kv => Kw (fst kv) (snd kv)) (combine (map fst keywords) vals))%list.
Proof.
  split; [split; reflexivity|].
  exact (parse_call_success_shape "f(x, lr=0.5, k=[1])" _ [] _ eq_refl eq_refl).
Defined.

(** ** A mapping applied to the argument list beforehand *)

Section OverriddenList.

Import RewritePolicy Overrides.

Lemma emitted_override (overrides : dict value) (a : arg) :
  emitted [] (override overrides a) = emitted overrides a.
Proof. destruct a; reflexivity. Qed.

Lemma keyword_names_app (l1 l2 : list arg) :
  keyword_names (l1 ++ l2) = (keyword_names l1 ++ keyword_names l2)%list.
Proof. unfold keyword_names. apply flat_map_app. Qed.

Lemma keyword_names_override (overrides : dict value) (args : list arg) :
  keyword_names (map (override overrides) args) = keyword_names args.
Proof.
  induction args as [|[n | n v] args IH]; simpl; [reflexivity | exact IH | now rewrite IH].
Qed.

Lemma keyword_names_new (items : dict value) :
  keyword_names (map (fun kv => Kw (fst kv) (snd kv)) items) = dict_keys items.
Proof. induction items as [|[k v] items IH]; simpl; [reflexivity | now rewrite IH]. Qed.

Lemma keyword_names_overridden (overrides : dict value) (args : list arg) :
  keyword_names (overridden overrides args)
  = (keyword_names args ++ dict_keys (unseen args overrides))%list.
Proof.
  unfold overridden.
  now rewrite keyword_names_app, keyword_names_override, keyword_names_new.
Qed.

Lemma transform_args_overridden (args : list arg) (overrides : dict value) :
  transform_args args overrides = transform_args (overridden overrides args) [].
Proof.
  rewrite !transform_args_spec. unfold rewrite_args_spec, overridden.
  cbn [unseen filter map]. rewrite app_nil_r, map_app, !map_map.
  f_equal. f_equal.
  apply map_ext. intros a. now rewrite emitted_override.
Qed.

Lemma dict_find_nodup {V : Type} (d : dict V) (k : string) (v : V) :
  NoDup (dict_keys d) -> In (k, v) d -> dict_find d k = Some v.
Proof.
  induction d as [|[k' v'] d IH]; simpl; [tauto|].
  intros Hnd [[= -> ->] | Hin]; [now rewrite String.eqb_refl|].
  inversion Hnd as [|? ? Hnot Hnd']; subst.
  destruct (String.eqb_spec k' k) as [-> | _]; [|auto].
  exfalso. apply Hnot. unfold dict_keys. apply in_map_iff. exists (k, v). auto.
Qed.

Lemma emitted_twice (overrides : dict value) (a : arg) :
  emitted overrides (override overrides a) = emitted overrides a.
Proof.
  destruct a as [n | n v]; [reflexivity|]. cbn [override emitted].
  destruct (dict_find overrides n); reflexivity.
Qed.

Lemma filter_none {A : Type} (f : A -> bool) (l : list A) :
  (forall x, In x l -> f x = false) -> filter f l = [].
Proof.
  induction l as [|x l IH]; intros H; [reflexivity|].
  cbn [filter]. rewrite H by now left. apply IH. intros y Hy. apply H. now right.
Qed.

Lemma unseen_overridden (overrides : dict value) (args : list arg) :
  unseen (overridden overrides args) overrides = [].
Proof.
  unfold unseen at 1. apply filter_none.
  { intros [k v] Hin. cbn [fst]. apply negb_false_iff, existsb_eqb_in.
    rewrite keyword_names_overridden. apply in_or_app.
    destruct (existsb (String.eqb k) (keyword_names args)) eqn:E.
    - left. now apply existsb_eqb_in.
    - right. unfold dict_keys. apply in_map_iff. exists (k, v). split; [reflexivity|].
      unfold unseen. apply filter_In. split; [assumption|]. cbn [fst]. now rewrite E. }
Qed.

End OverriddenList.

(** X10: the text that [transform_args] returns for a parsed argument list
    and an override mapping is the text it returns, with no override, for the
    list in which each keyword has taken the value of the mapping and the
    entries of the mapping that name no keyword of the call are added at the
    end. *)
Theorem rewrite_renders_overridden (args : list arg) (overrides : dict value) :
  transform_args args overrides
  = transform_args (Overrides.overridden overrides args) [].
Proof. exact (transform_args_overridden args overrides). Qed.

(** X11: for a mapping with distinct keys, [transform_args] with the
    mapping returns the same text for an argument list and for the list
    that already carries the mapping (every keyword present in the mapping
    holds the value of the mapping, the other entries of the mapping are
    appended): on such a list the mapping overrides with equal values and
    appends nothing. *)
Theorem rewrite_twice (args : list arg) (overrides : dict value) :
  NoDup (dict_keys overrides) ->
  transform_args (Overrides.overridden overrides args) overrides
  = transform_args args overrides.
Proof.
  intros Hnd. rewrite !transform_args_spec. unfold RewritePolicy.rewrite_args_spec.
  rewrite unseen_overridden. cbn [map]. rewrite app_nil_r.
  unfold Overrides.overridden. rewrite map_app, !map_map. f_equal. f_equal.
  - apply map_ext. intros a. apply emitted_twice.
  - apply map_ext_in. intros [k v] Hin. cbn [RewritePolicy.emitted fst snd].
    unfold RewritePolicy.unseen in Hin. apply filter_In in Hin. destruct Hin as [Hin _].
    now rewrite (dict_find_nodup overrides k v Hnd Hin).
Qed.

Lemma rewrite_twice_example :
  NoDup (dict_keys [("lr", VFloat false 1 (-2)); ("momentum", VFloat false 9 (-1))])
  /\ transform_args
       (Overrides.overridden
          [("lr", VFloat false 1 (-2)); ("momentum", VFloat false 9 (-1))]
          [Pos "x"; Kw "lr" (VFloat false 1 (-1))])
       [("lr", VFloat false 1 (-2)); ("momentum", VFloat false 9 (-1))]
     = transform_args [Pos "x"; Kw "lr" (VFloat false 1 (-1))]
         [("lr", VFloat false 1 (-2)); ("momentum", VFloat false 9 (-1))].
Proof.
  assert (H : NoDup (dict_keys [("lr", VFloat false 1 (-2));
                                ("momentum", VFloat false 9 (-1))])).
  { simpl. repeat constructor; simpl; intuition discriminate. }
  split; [exact H|].
  exact (rewrite_twice [Pos "x"; Kw "lr" (VFloat false 1 (-1))] _ H).
Defined.

(** ** The whole transform: failure and line breaks *)

Section WholeTransform.

(** The copy of the space that [assign_hyperopt] makes first never fails. *)
Lemma arguments_built (space : dict (dict value)) :
  exists arguments,
    mapM (fun function =>
            d <- dict_get space function ;;
            d' <- copy_dict d ;;
            Ok (function, d')) (dict_keys space) = Ok arguments.
Proof.
  apply mapM_ok. intros f Hf.
  destruct (dict_get_key space f Hf) as [d Hd]. rewrite Hd. cbn [bind].
  destruct (mapM_ok (fun p => v <- dict_get d p ;; Ok (p, v)) (dict_keys d)) as [d' Hd'].
  - intros p Hp. destruct (dict_get_key d p Hp) as [v Hv]. rewrite Hv. cbn [bind]. eauto.
  - unfold copy_dict. rewrite Hd'. cbn [bind]. eauto.
Qed.

Lemma split_snoc_newline (s : string) :
  Str.split Str.newline (s ++ Str.nl) = (Str.split Str.newline s ++ [EmptyString])%list.
Proof.
  induction s as [|a s IH]; [reflexivity|].
  change (String a s ++ Str.nl) with (String a (s ++ Str.nl)).
  cbn [Str.split]. rewrite IH.
  destruct (Ascii.eqb a Str.newline); [reflexivity|].
  pose proof (split_not_nil Str.newline s) as Hne.
  destruct (Str.split Str.newline s); [congruence | reflexivity].
Qed.

Lemma blocks_loop_snoc_empty (lines : list string) :
  forall (blocks : list string) (new_block : string) (n_diff : Z) (r : list string),
    (n_diff = 0 -> new_block = EmptyString) ->
    blocks_loop lines blocks new_block n_diff = Ok r ->
    blocks_loop (lines ++ [EmptyString]) blocks new_block n_diff
    = Ok (r ++ [EmptyString])%list.
Proof.
  induction lines as [|line lines IH]; intros blocks new_block n_diff r Hn.
  - cbn [blocks_loop app]. destruct (n_diff =? 0) eqn:Hz; [|discriminate].
    intros [= <-]. apply Z.eqb_eq in Hz. rewrite (Hn Hz), Hz. reflexivity.
  - cbn [blocks_loop app].
    destruct (n_diff + (Str.count "(" line - Str.count ")" line) <? 0); [discriminate|].
    destruct (n_diff + (Str.count "(" line - Str.count ")" line) =? 0) eqn:Hz.
    + apply IH. reflexivity.
    + apply IH. intros H. rewrite H in Hz. discriminate.
Qed.

Lemma rewrite_line_empty (arguments : dict (dict value)) (functions : list string) :
  rewrite_line arguments functions EmptyString = Ok EmptyString.
Proof.
  apply rewrite_line_absent. intros f _. destruct f; reflexivity.
Qed.

Lemma lines_loop_snoc_empty (arguments : dict (dict value)) (functions blocks : list string) :
  forall (acc out : string),
    lines_loop arguments functions blocks acc = Ok out ->
    lines_loop arguments functions (blocks ++ [EmptyString]) acc = Ok (out ++ Str.nl).
Proof.
  induction blocks as [|b blocks IH]; intros acc out.
  - cbn [lines_loop app]. intros [= <-]. rewrite rewrite_line_empty. reflexivity.
  - cbn [lines_loop app].
    destruct (rewrite_line arguments functions b); cbn [bind]; try discriminate.
    apply IH.
Qed.

End WholeTransform.

(** X13: on code whose round brackets are not balanced (the delta is
    negative after some physical line, or not zero after the last one)
    [assign_hyperopt] raises [AssertionError] whatever the parameter space
    is, and returns no text. *)
Theorem malformed_code_aborts (code : string) (space : dict (dict value)) :
  Segments.malformed (Str.split Str.newline code) = true ->
  assign_hyperopt code space = Raise AssertionError.
Proof.
  intros H. unfold assign_hyperopt.
  destruct (arguments_built space) as [arguments ->]. cbn [bind].
  rewrite convert_spec, H. reflexivity.
Qed.

Lemma malformed_code_aborts_example :
  Segments.malformed (Str.split Str.newline ("model = build(lr=0.1" ++ Str.nl ++ "x = 1")) = true
  /\ assign_hyperopt ("model = build(lr=0.1" ++ Str.nl ++ "x = 1") example_space
     = Raise AssertionError.
Proof.
  split; [reflexivity|].
  exact (malformed_code_aborts ("model = build(lr=0.1" ++ Str.nl ++ "x = 1")
           example_space eq_refl).
Defined.

(** X14: a line break added at the end of the code adds one empty line at
    the end of the output: when [assign_hyperopt] returns a text for some
    code, it returns that text followed by a line break for the code followed
    by a line break. *)
Theorem trailing_line_break (code : string) (space : dict (dict value)) (out : string) :
  assign_hyperopt code space = Ok out ->
  assign_hyperopt (code ++ Str.nl) space = Ok (out ++ Str.nl).
Proof.
  unfold assign_hyperopt, convert_to_single_line_blocks.
  destruct (arguments_built space) as [arguments ->]. cbn [bind].
  rewrite split_snoc_newline.
  destruct (blocks_loop (Str.split Str.newline code) [] EmptyString 0) as [blocks| |] eqn:Hb;
    cbn [bind]; try discriminate.
  rewrite (blocks_loop_snoc_empty _ _ _ _ _ (fun _ => eq_refl) Hb). cbn [bind].
  apply lines_loop_snoc_empty.
Qed.

Lemma trailing_line_break_example :
  assign_hyperopt "model = build(lr=0.1)" example_space
  = Ok ("model = build(lr=0.01, momentum=0.9)" ++ Str.nl)
  /\ assign_hyperopt ("model = build(lr=0.1)" ++ Str.nl) example_space
     = Ok (("model = build(lr=0.01, momentum=0.9)" ++ Str.nl) ++ Str.nl).
Proof.
  split; [vm_compute; reflexivity|].
  apply (trailing_line_break "model = build(lr=0.1)" example_space).
  vm_compute. reflexivity.
Defined.

(** X15: when no key of the parameter space, followed by an opening bracket,
    occurs in any logical statement of the code, [assign_hyperopt] returns
    the statements of the segmenter, each followed by a line break; in
    particular it does so for every balanced code when the space is empty. *)
Theorem transform_without_targets (code : string) (space : dict (dict value))
    (blocks : list string) :
  convert_to_single_line_blocks code = Ok blocks ->
  Forall (no_target (dict_keys space)) blocks ->
  assign_hyperopt code space = Ok (Str.cat (map (fun l => l ++ Str.nl) blocks)).
Proof. exact (inject_untouched code space blocks). Qed.

Lemma transform_without_targets_example :
  (convert_to_single_line_blocks ("a = g( 1 )" ++ Str.nl ++ "b = 2") = Ok ["a = g(1)"; "b = 2"]
   /\ Forall (no_target (dict_keys example_space)) ["a = g(1)"; "b = 2"])
  /\ assign_hyperopt ("a = g( 1 )" ++ Str.nl ++ "b = 2") example_space
     = Ok (Str.cat (map (fun l => l ++ Str.nl) ["a = g(1)"; "b = 2"])).
Proof.
  assert (H : Forall (no_target (dict_keys example_space)) ["a = g(1)"; "b = 2"]).
  { repeat constructor; intros f [<- | []]; reflexivity. }
  split; [split; [vm_compute; reflexivity | exact H]|].
  apply (transform_without_targets ("a = g( 1 )" ++ Str.nl ++ "b = 2") example_space).
  - vm_compute. reflexivity.
  - exact H.
Defined.

(** ** What a rewritten statement keeps *)

Section Surroundings.

Lemma find_prefix (pat : string) (s : string) :
  forall k : nat, Str.find pat s = Z.of_nat k ->
    (k <= String.length s)%nat /\ String.prefix pat (Str.drop k s) = true.
Proof.
  induction s as [|a s IH]; intros k; cbn [Str.find].
  - destruct (String.prefix pat EmptyString) eqn:E; [|lia].
    intros H. assert (k = O) by lia. subst k. split; [simpl; lia | exact E].
  - destruct (String.prefix pat (String a s)) eqn:E.
    + intros H. assert (k = O) by lia. subst k. split; [simpl; lia | exact E].
    + destruct (Str.find pat s <? 0) eqn:Eneg; [lia|].
      intros H. destruct k as [|k]; [order_bools; lia|].
      destruct (IH k ltac:(lia)) as [Hk Hp]. split; [simpl; lia | exact Hp].
Qed.

Lemma find_lower_bound (pat s : string) : -1 <= Str.find pat s.
Proof.
  induction s as [|a s IH]; cbn [Str.find].
  - destruct (String.prefix pat EmptyString); lia.
  - destruct (String.prefix pat (String a s)); [lia|].
    destruct (Str.find pat s <? 0); lia.
Qed.

Lemma substring_add (k m : nat) (s : string) :
  String.substring 0 (k + m) s
  = String.substring 0 k s ++ String.substring 0 m (Str.drop k s).
Proof.
  revert s; induction k as [|k IH]; intros s.
  - simpl. destruct s; destruct m; reflexivity.
  - destruct s as [|a s].
    + simpl. destruct m; reflexivity.
    + cbn [Nat.add String.substring Str.drop]. rewrite IH. reflexivity.
Qed.

Lemma slice_to (s : string) (k : nat) :
  (k <= String.length s)%nat ->
  Str.slice s None (Some (Z.of_nat k)) = String.substring 0 k s.
Proof.
  intros H. rewrite <- (slice_nat s 0 k H). unfold Str.slice, Str.clamp.
  change (Z.of_nat 0 <? 0) with false. cbv iota.
  destruct (Str.len s <? Z.of_nat 0) eqn:E; [unfold Str.len in E; order_bools; lia|].
  reflexivity.
Qed.

Lemma prefix_length (pat s : string) :
  String.prefix pat s = true -> (String.length pat <= String.length s)%nat.
Proof.
  revert pat; induction s as [|a s IH]; intros pat; destruct pat as [|b pat]; simpl;
    try lia; try discriminate.
  destruct (Ascii.ascii_dec b a); [|discriminate]. intros H. apply IH in H. lia.
Qed.

(** The text up to the end of the first occurrence of a pattern. *)
Lemma slice_through_pattern (pat line : string) (k : nat) :
  Str.find pat line = Z.of_nat k ->
  Str.slice line None (Some (Z.of_nat k)) ++ pat
  = Str.slice line None (Some (Z.of_nat k + Str.len pat)).
Proof.
  intros H. destruct (find_prefix pat line k H) as [Hk Hp].
  pose proof (prefix_length _ _ Hp) as Hl. rewrite length_drop in Hl.
  unfold Str.len. rewrite <- Nat2Z.inj_add.
  rewrite !slice_to by lia. rewrite substring_add. f_equal.
  symmetry. now apply String.prefix_correct.
Qed.

End Surroundings.

(** X16: when a key of the space followed by an opening bracket occurs in a
    statement and the rewriting of that call returns, the new statement is
    the old one with only the text between the opening bracket of the first
    such occurrence and its matching closing bracket replaced: the text up to
    and including the opening bracket and the text from the matching closing
    bracket on are kept as they are. *)
Theorem rewrite_keeps_surroundings (arguments : dict (dict value))
    (line function line' : string) :
  Str.find (function ++ "(") line <> -1 ->
  rewrite_call arguments line function = Ok line' ->
  exists (end_ind : Z) (inner : string),
    find_matching_parenthesis line
      (Str.find (function ++ "(") line + Str.len function) "(" None = Ok end_ind
    /\ Str.find (function ++ "(") line + Str.len function < end_ind < Str.len line
    /\ line' = Str.slice line None
                 (Some (Str.find (function ++ "(") line + Str.len function + 1))
               ++ inner ++ Str.slice line (Some end_ind) None.
Proof.
  intros Hfound. unfold rewrite_call.
  pose proof (find_lower_bound (function ++ "(") line) as Hlow.
  destruct (Str.find (function ++ "(") line =? -1) eqn:E; [order_bools; lia|].
  cbn [negb].
  assert (Hlen : Str.len (function ++ "(") = Str.len function + 1).
  { unfold Str.len. rewrite length_append. simpl. lia. }
  rewrite Hlen.
  replace (Str.find (function ++ "(") line + (Str.len function + 1) - 1)
    with (Str.find (function ++ "(") line + Str.len function) by lia.
  destruct (find_matching_parenthesis line _ "(" None) as [end_ind| |] eqn:Hm;
    cbn [bind]; try discriminate.
  destruct (parse_function_call _) as [args| |]; cbn [bind]; try discriminate.
  destruct (dict_get arguments function) as [map_args| |]; cbn [bind]; try discriminate.
  intros [= <-].
  exists end_ind, (transform_args args map_args). split; [reflexivity|].
  assert (Hnat : Str.find (function ++ "(") line
                 = Z.of_nat (Z.to_nat (Str.find (function ++ "(") line))) by lia.
  split.
  - eapply (find_matching_sound line _ end_ind "(" ")");
      [unfold Str.len; lia | discriminate | reflexivity | exact Hm].
  - rewrite <- append_assoc.
    rewrite Hnat at 1. rewrite (slice_through_pattern _ _ _ Hnat).
    rewrite <- Hnat, Hlen. now rewrite Z.add_assoc.
Qed.

Lemma rewrite_keeps_surroundings_example :
  (Str.find ("build" ++ "(") "m = build(lr=0.1) + 1" <> -1
   /\ rewrite_call example_space "m = build(lr=0.1) + 1" "build"
      = Ok "m = build(lr=0.01, momentum=0.9) + 1")
  /\ exists (end_ind : Z) (inner : string),
       find_matching_parenthesis "m = build(lr=0.1) + 1"
         (Str.find ("build" ++ "(") "m = build(lr=0.1) + 1" + Str.len "build") "(" None
       = Ok end_ind
       /\ Str.find ("build" ++ "(") "m = build(lr=0.1) + 1" + Str.len "build" < end_ind
          < Str.len "m = build(lr=0.1) + 1"
       /\ "m = build(lr=0.01, momentum=0.9) + 1"
          = Str.slice "m = build(lr=0.1) + 1" None
              (Some (Str.find ("build" ++ "(") "m = build(lr=0.1) + 1"
                     + Str.len "build" + 1))
            ++ inner ++ Str.slice "m = build(lr=0.1) + 1" (Some end_ind) None.
Proof.
  assert (H : Str.find ("build" ++ "(") "m = build(lr=0.1) + 1" <> -1).
  { vm_compute. discriminate. }
  split; [split; [exact H | vm_compute; reflexivity]|].
  apply (rewrite_keeps_surroundings example_space "m = build(lr=0.1) + 1" "build" _ H).
  vm_compute. reflexivity.
Defined.

(** * The frame of the whole transform *)

Section Splice.

Lemma prefix_split (p s : string) :
  String.prefix p s = true -> s = p ++ Str.drop (String.length p) s.
Proof.
  revert s; induction p as [|a p IH]; intros s; [reflexivity|].
  destruct s as [|b s]; simpl; [discriminate|].
  destruct (Ascii.ascii_dec a b) as [-> | _]; [|discriminate].
  intros H. now rewrite <- IH.
Qed.

Lemma length_substring (k : nat) (s : string) :
  (k <= String.length s)%nat -> String.length (String.substring 0 k s) = k.
Proof.
  revert s; induction k as [|k IH]; intros s H.
  - destruct s; reflexivity.
  - destruct s as [|a s]; simpl in *; [lia|]. rewrite IH; lia.
Qed.

(** The text around the first occurrence of a pattern. *)
Lemma find_split (pat s : string) (k : nat) :
  Str.find pat s = Z.of_nat k ->
  exists before rest, s = before ++ pat ++ rest /\ String.length before = k.
Proof.
  intros H. destruct (find_prefix pat s k H) as [Hk Hp].
  exists (String.substring 0 k s), (Str.drop (String.length pat) (Str.drop k s)).
  split; [|now apply length_substring].
  rewrite <- (prefix_split _ _ Hp). symmetry. apply substring_drop.
Qed.

Lemma drop_app_length (a b : string) : Str.drop (String.length a) (a ++ b) = b.
Proof. induction a as [|x a IH]; [reflexivity | exact IH]. Qed.

Lemma get_split (d : nat) (s : string) (x : ascii) :
  String.get d s = Some x ->
  exists inner after, s = inner ++ String x after /\ String.length inner = d.
Proof.
  revert s; induction d as [|d IH]; intros s; destruct s as [|a s]; simpl;
    try discriminate.
  - intros [= ->]. exists EmptyString, s. split; reflexivity.
  - intros H. destruct (IH _ H) as [inner [after [-> Hl]]].
    exists (String a inner), after. split; [reflexivity | simpl; lia].
Qed.

Lemma slice_prefix (a b : string) : Str.slice (a ++ b) None (Some (Str.len a)) = a.
Proof.
  unfold Str.len. rewrite slice_to by (rewrite length_append; lia).
  apply substring_append_l.
Qed.

Lemma slice_suffix (a b : string) : Str.slice (a ++ b) (Some (Str.len a)) None = b.
Proof.
  unfold Str.slice, Str.clamp, Str.len. rewrite length_append.
  destruct (Z.of_nat (String.length a) <? 0) eqn:E0; [order_bools; lia|]. rewrite E0.
  destruct (Z.of_nat (String.length a + String.length b) <? Z.of_nat (String.length a))
    eqn:E1; [order_bools; lia|].
  destruct (Z.of_nat (String.length a + String.length b) <=? Z.of_nat (String.length a))
    eqn:E2; order_bools.
  - destruct b; [reflexivity | simpl in E2; lia].
  - rewrite Nat2Z.id.
    replace (Z.to_nat (Z.of_nat (String.length a + String.length b)
                       - Z.of_nat (String.length a))) with (String.length b) by lia.
    rewrite substring_append_r. apply substring_all.
Qed.

Lemma slice_middle (a b c : string) :
  Str.slice (a ++ b ++ c) (Some (Str.len a)) (Some (Str.len a + Str.len b)) = b.
Proof.
  unfold Str.len. rewrite <- Nat2Z.inj_add.
  rewrite slice_nat by (rewrite !length_append; lia).
  rewrite substring_append_r. apply substring_append_l.
Qed.

(** The mapping held for a key is the copy of the entry of the space. *)
Lemma copied_arguments (space : dict (dict value)) (function : string)
    (map_args : dict value) (keys : list string) :
  forall arguments,
    mapM (fun function =>
            d <- dict_get space function ;;
            d' <- copy_dict d ;;
            Ok (function, d')) keys = Ok arguments ->
    dict_get arguments function = Ok map_args ->
    overrides_of space function = Ok map_args.
Proof.
  unfold overrides_of, dict_get at 2.
  set (g := fun function : string =>
              d <- dict_get space function ;;
              d' <- copy_dict d ;;
              Ok (function, d')).
  induction keys as [|k keys IH]; intros arguments.
  - intros [= <-]. discriminate.
  - cbn [mapM]. fold (mapM g). unfold g at 1.
    destruct (dict_get space k) as [d| |] eqn:Ed; cbn [bind]; try discriminate.
    destruct (copy_dict d) as [d'| |] eqn:Ec; cbn [bind]; try discriminate.
    destruct (mapM g keys) as [rest| |] eqn:Er; cbn [bind]; try discriminate.
    intros [= <-]. cbn [dict_find].
    destruct (String.eqb_spec k function) as [-> | _].
    + intros [= <-]. rewrite Ed. cbn [bind]. exact Ec.
    + intros H. exact (IH rest eq_refl H).
Qed.

Lemma copy_dict_distinct {V : Type} (d : dict V) :
  NoDup (dict_keys d) -> copy_dict d = Ok d.
Proof.
  intros Hnd. unfold copy_dict.
  set (g := fun p : string => v <- dict_get d p ;; Ok (p, v)).
  assert (H : forall l, (forall kv, In kv l -> In kv d) -> mapM g (dict_keys l) = Ok l).
  { induction l as [|[k v] l IH]; intros Hin; [reflexivity|].
    cbn [dict_keys map mapM fst]. fold (mapM g). fold (dict_keys l).
    unfold g at 1. unfold dict_get.
    rewrite (dict_find_nodup d k v Hnd (Hin _ (or_introl eq_refl))). cbn [bind].
    rewrite IH by (intros kv Hkv; apply Hin; now right). reflexivity. }
  apply H. auto.
Qed.

(** With distinct parameter names, as in a Python dict, the mapping held
    for a key is the entry of the space itself. *)
Lemma overrides_of_distinct (space : dict (dict value)) (function : string)
    (d : dict value) :
  dict_get space function = Ok d -> NoDup (dict_keys d) ->
  overrides_of space function = Ok d.
Proof.
  intros Hd Hnd. unfold overrides_of. rewrite Hd. cbn [bind].
  now apply copy_dict_distinct.
Qed.

Variable space : dict (dict value).

(** A pass of the inner loop that returns has replaced nothing but the
    text between the brackets of the call. *)
Lemma rewrite_call_rewritten (arguments : dict (dict value)) (line function line' : string) :
  (forall map_args, dict_get arguments function = Ok map_args ->
                    overrides_of space function = Ok map_args) ->
  rewrite_call arguments line function = Ok line' ->
  call_rewritten space function line line'.
Proof.
  intros Hargs. unfold rewrite_call.
  pose proof (find_lower_bound (function ++ "(") line) as Hlow.
  destruct (Str.find (function ++ "(") line =? -1) eqn:E.
  - cbn [negb]. intros [= <-]. apply call_absent. now apply Z.eqb_eq.
  - cbn [negb]. apply Z.eqb_neq in E.
    assert (Hnat : Str.find (function ++ "(") line
                   = Z.of_nat (Z.to_nat (Str.find (function ++ "(") line))) by lia.
    destruct (find_split _ _ _ Hnat) as [before [rest [Hline Hk]]].
    assert (Hfind : Str.find (function ++ "(") line = Str.len before).
    { unfold Str.len. rewrite Hk. exact Hnat. }
    rewrite Hfind. clear Hnat Hk Hlow E.
    assert (Hlen : Str.len (function ++ "(") = Str.len function + 1).
    { unfold Str.len. rewrite length_append. simpl. lia. }
    rewrite Hlen.
    replace (Str.len before + (Str.len function + 1) - 1)
      with (Z.of_nat (String.length (before ++ function))) 
      by (unfold Str.len; rewrite length_append; lia).
    destruct (find_matching_parenthesis line _ "(" None) as [end_ind| |] eqn:Hm;
      cbn [bind]; try discriminate.
    pose proof (opening_of_result line "(" _ _ Hm) as Hi.
    pose proof (find_matching_as_offset line "(" ")" _ (Nat2Z.is_nonneg _) Hi eq_refl) as Ho.
    rewrite Nat2Z.id in Ho.
    assert (Hdrop : Str.drop (S (String.length (before ++ function))) line = rest).
    { rewrite Hline. rewrite <- (drop_app_length ((before ++ function) ++ "(") rest) at 2.
      rewrite !append_assoc. f_equal. rewrite !length_append. simpl. lia. }
    rewrite Hdrop in Ho. clear Hdrop. apply (eq_trans (eq_sym Hm)) in Ho.
    destruct (close_offset "(" ")" rest 1) as [d|] eqn:Ec; [|discriminate Ho].
    injection Ho as Hend.
    destruct (close_offset_sound "(" ")" ltac:(discriminate) _ 1 d Z.lt_0_1 Ec)
      as [Hg _].
    destruct (get_split _ _ _ Hg) as [inner [after [Hrest Hd]]].
    subst d rest.
    assert (Hs1 : Str.slice line None (Some (Str.len before)) = before).
    { rewrite Hline. apply slice_prefix. }
    assert (Hs2 : Str.slice line (Some (Str.len before)) (Some (end_ind + 1))
                  = function ++ "(" ++ inner ++ ")").
    { rewrite Hline, Hend.
      replace (Z.of_nat (String.length (before ++ function)) + 1
               + Z.of_nat (String.length inner) + 1)
        with (Str.len before + Str.len (function ++ "(" ++ inner ++ ")"))
        by (unfold Str.len; rewrite !length_append; simpl; lia).
      replace (before ++ (function ++ "(") ++ inner ++ String ")" after)
        with (before ++ (function ++ "(" ++ inner ++ ")") ++ after)
        by (rewrite !append_assoc; reflexivity).
      apply slice_middle. }
    assert (Hs3 : Str.slice line (Some end_ind) None = ")" ++ after).
    { rewrite Hline, Hend.
      replace (Z.of_nat (String.length (before ++ function)) + 1
               + Z.of_nat (String.length inner))
        with (Str.len (before ++ function ++ "(" ++ inner))
        by (unfold Str.len; rewrite !length_append; simpl; lia).
      replace (before ++ (function ++ "(") ++ inner ++ String ")" after)
        with ((before ++ function ++ "(" ++ inner) ++ ")" ++ after)
        by (rewrite !append_assoc; reflexivity).
      apply slice_suffix. }
    rewrite Hs1, Hs2, Hs3.
    destruct (parse_function_call _) as [args| |] eqn:Hp; cbn [bind]; try discriminate.
    destruct (dict_get arguments function) as [map_args| |] eqn:Hd; cbn [bind];
      try discriminate.
    intros [= <-]. rewrite append_assoc.
    apply (call_spliced space function line before inner after args map_args).
    + rewrite Hline, append_assoc. reflexivity.
    + exact Hfind.
    + exact Ec.
    + exact Hp.
    + apply Hargs. reflexivity.
Qed.

End Splice.

Section Passes.

Variable space : dict (dict value).
Variable arguments : dict (dict value).

Hypothesis copied :
  forall function map_args,
    dict_get arguments function = Ok map_args ->
    overrides_of space function = Ok map_args.

Lemma rewrite_line_rewritten (functions : list string) :
  forall line line',
    rewrite_line arguments functions line = Ok line' ->
    statement_rewritten space functions line line'.
Proof.
  induction functions as [|f fs IH]; intros line line'; cbn [rewrite_line].
  - intros [= <-]. constructor.
  - destruct (rewrite_call arguments line f) as [mid| |] eqn:E; cbn [bind];
      try discriminate.
    intros H. apply (passes_step space f fs line mid line').
    + exact (rewrite_call_rewritten space arguments line f mid (copied f) E).
    + now apply IH.
Qed.

End Passes.

Lemma app_inv_length (a a' b b' : string) :
  a ++ b = a' ++ b' -> String.length a = String.length a' -> a = a' /\ b = b'.
Proof.
  revert a'; induction a as [|x a IH]; intros [|x' a']; simpl; try discriminate.
  - auto.
  - intros [= -> H] [= Hl]. destruct (IH _ H Hl) as [-> ->]. auto.
Qed.

(** A pass is determined by the statement: the occurrence, the closing
    bracket and the text written are those of the code. *)
Lemma call_rewritten_functional (space : dict (dict value)) (function line r1 r2 : string) :
  call_rewritten space function line r1 ->
  call_rewritten space function line r2 ->
  r1 = r2.
Proof.
  intros H1 H2.
  destruct H1 as [Ha | b1 i1 a1 args1 m1 Hl1 Hf1 Hc1 Hp1 Ho1];
    destruct H2 as [Hb | b2 i2 a2 args2 m2 Hl2 Hf2 Hc2 Hp2 Ho2].
  - reflexivity.
  - rewrite Ha in Hf2. unfold Str.len in Hf2. lia.
  - rewrite Hb in Hf1. unfold Str.len in Hf1. lia.
  - assert (Hlen : String.length b1 = String.length b2).
    { rewrite Hf1 in Hf2. unfold Str.len in Hf2. lia. }
    rewrite Hl1 in Hl2. destruct (app_inv_length _ _ _ _ Hl2 Hlen) as [<- Hr].
    destruct (app_inv_length _ _ _ _ Hr eq_refl) as [_ Hr1].
    destruct (app_inv_length "(" "(" _ _ Hr1 eq_refl) as [_ Hr2].
    rewrite Hr2 in Hc1. rewrite Hc1 in Hc2. injection Hc2 as Hli.
    destruct (app_inv_length _ _ _ _ Hr2 Hli) as [<- Ha].
    injection Ha as <-.
    rewrite Hp1 in Hp2. injection Hp2 as <-.
    rewrite Ho1 in Ho2. injection Ho2 as <-.
    reflexivity.
Qed.

(** The statement of a call of a key and a call of another function. *)
Lemma call_rewritten_example :
  call_rewritten example_space "build" "y = build(lr=0.1) + g(b=2)"
    "y = build(lr=0.01, momentum=0.9) + g(b=2)".
Proof.
  exact (call_spliced example_space "build" "y = build(lr=0.1) + g(b=2)"
           "y = " "lr=0.1" " + g(b=2)"
           [Kw "lr" (VFloat false 1 (-1))]
           [("lr", VFloat false 1 (-2)); ("momentum", VFloat false 9 (-1))]
           eq_refl eq_refl eq_refl eq_refl eq_refl).
Qed.

(** Passes for keys that do not occur keep the statement. *)
Lemma statement_rewritten_untouched (space : dict (dict value)) (functions : list string) :
  forall line line',
    statement_rewritten space functions line line' ->
    no_target functions line -> line' = line.
Proof.
  intros line line' H. induction H as [line | f fs line mid line' Hc _ IH]; intros Hn.
  - reflexivity.
  - assert (Hf : Str.find (f ++ "(") line = -1) by (apply Hn; now left).
    destruct Hc as [_ | b i a args m Hl Hfind _ _ _].
    + apply IH. intros g Hg. apply Hn. now right.
    + rewrite Hf in Hfind. unfold Str.len in Hfind. lia.
Qed.

(** C5 (amended): when [assign_hyperopt] returns, its output is one line per
    logical statement of the segmenter, in order, and each line comes from
    its statement by one pass per key of the space: a pass in which the key
    followed by an opening bracket does not occur keeps the text, and any
    other pass replaces only the text between the opening bracket of the
    first such occurrence and its matching closing bracket, so that every
    character before and after that call, a call of any other function
    among them, stays as the segmenter produced it.  In particular a
    statement in which no key followed by an opening bracket occurs stands in
    the output unchanged. *)
Theorem inject_keeps_text_outside_calls (code : string) (space : dict (dict value))
    (out : string) :
  assign_hyperopt code space = Ok out ->
  exists blocks outs,
    convert_to_single_line_blocks code = Ok blocks
    /\ Forall2 (fun b o => statement_rewritten space (dict_keys space) b o
                           /\ (no_target (dict_keys space) b -> o = b)) blocks outs
    /\ out = Str.cat (map (fun l => l ++ Str.nl) outs).
Proof.
  unfold assign_hyperopt.
  destruct (mapM _ (dict_keys space)) as [arguments| |] eqn:Ha; cbn [bind];
    try discriminate.
  destruct (convert_to_single_line_blocks code) as [blocks| |]; cbn [bind];
    try discriminate.
  intros H. apply lines_loop_outputs in H. destruct H as [outs [HF ->]].
  exists blocks, outs. split; [reflexivity|]. split; [|reflexivity].
  induction HF as [|b o blocks outs Hb HF IH]; constructor; [|exact IH].
  assert (Hr : statement_rewritten space (dict_keys space) b o).
  { apply (rewrite_line_rewritten space arguments); [|exact Hb].
    intros f m. exact (copied_arguments space f m (dict_keys space) arguments Ha). }
  split; [exact Hr | exact (statement_rewritten_untouched _ _ _ _ Hr)].
Qed.

Lemma inject_keeps_text_outside_calls_example :
  assign_hyperopt "y = build(lr=0.1) + g(b=2)" example_space
  = Ok ("y = build(lr=0.01, momentum=0.9) + g(b=2)" ++ Str.nl)
  /\ exists blocks outs,
       convert_to_single_line_blocks "y = build(lr=0.1) + g(b=2)" = Ok blocks
       /\ Forall2 (fun b o =>
                     statement_rewritten example_space (dict_keys example_space) b o
                     /\ (no_target (dict_keys example_space) b -> o = b)) blocks outs
       /\ "y = build(lr=0.01, momentum=0.9) + g(b=2)" ++ Str.nl
          = Str.cat (map (fun l => l ++ Str.nl) outs).
Proof.
  split; [vm_compute; reflexivity|].
  apply (inject_keeps_text_outside_calls "y = build(lr=0.1) + g(b=2)" example_space).
  vm_compute. reflexivity.
Defined.
